(** * TrustCheck streaming gateway: a shallow embedding of [server.js]

    The gateway relays audio from a socket.io client to a speech-recognition
    endpoint over a presigned WebSocket URL and relays transcripts back.
    This development embeds the pure helpers of [server.js]
    ([encodeRFC3986], [buildQueryString], [extractTranscriptParts]) and the
    per-connection handlers ([start], [audio], [stop], [disconnect] and the
    upstream [open]/[message]/[close]/[error] callbacks) as a step function
    over an explicit session state, and proves the properties the
    specification states about them. *)

From Stdlib Require Import ZArith NArith List Ascii String Strings.Byte QArith Lia.
From stdpp Require Import base option list sorting gmap.

#[local] Set Warnings "-register-all".

Local Open Scope N_scope.

(** ** JavaScript strings

    A JavaScript string is a sequence of UTF-16 code units.  The default
    [Array.prototype.sort] comparator and [===] both work on code units, so
    the embedding keeps them: a string is a list of code units held in [N]. *)

Module Js.

Abbreviation jsstring := (list N).

(** A literal of the source, written as a Rocq string of ASCII characters. *)
Definition lit (s : string) : jsstring :=
  map N_of_ascii (list_ascii_of_string s).

(** [a < b] as the default sort comparator decides it: the first differing
    code unit decides, and a proper prefix comes first. *)
Fixpoint ltb (a b : jsstring) : bool :=
  match a, b with
  | [], [] => false
  | [], _ :: _ => true
  | _ :: _, [] => false
  | x :: a', y :: b' =>
      if x <? y then true else if y <? x then false else ltb a' b'
  end.

Definition lt (a b : jsstring) : Prop := ltb a b = true.
Definition le (a b : jsstring) : Prop := ltb b a = false.

#[global] Instance lt_dec a b : Decision (lt a b).
Proof. unfold lt. apply _. Defined.
#[global] Instance le_dec a b : Decision (le a b).
Proof. unfold le. apply _. Defined.

(** [xs.sort()] on an array of strings.  The comparator is a total order on
    strings, so every sorting algorithm returns the same array. *)
Definition sort (xs : list jsstring) : list jsstring := merge_sort le xs.

(** [parts.join(sep)] *)
Fixpoint join (sep : jsstring) (parts : list jsstring) : jsstring :=
  match parts with
  | [] => []
  | [p] => p
  | p :: rest => p ++ sep ++ join sep rest
  end.

(** [a.includes(b)]: [b] occurs in [a] as a contiguous run of code units. *)
Definition includes (a b : jsstring) : Prop :=
  ∃ pre post, a = pre ++ b ++ post.

End Js.

Import Js.

(** ** Percent encoding: [encodeURIComponent] and [encodeRFC3986] *)

Module Uri.

Definition is_alpha (c : N) : bool :=
  ((65 <=? c) && (c <=? 90)) || ((97 <=? c) && (c <=? 122)).
Definition is_digit (c : N) : bool := (48 <=? c) && (c <=? 57).

(** The five marks [encodeURIComponent] keeps and line 33 escapes:
    [! ' ( ) *]. *)
Definition is_extra (c : N) : bool :=
  (c =? 33) || (c =? 39) || (c =? 40) || (c =? 41) || (c =? 42).

(** The characters [encodeRFC3986] leaves as they are: letters, digits and
    [- _ . ~]. *)
Definition is_unreserved (c : N) : bool :=
  is_alpha c || is_digit c
  || (c =? 45) || (c =? 95) || (c =? 46) || (c =? 126).

(** The set [encodeURIComponent] leaves as it is (uriUnescaped). *)
Definition uri_unescaped (c : N) : bool := is_unreserved c || is_extra c.

Definition hex_digit (d : N) : N := if d <? 10 then 48 + d else 55 + d.

(** [%XX] for one octet. *)
Definition pct (b : N) : jsstring :=
  [37; hex_digit (b / 16); hex_digit (b mod 16)].

Definition utf8 (cp : N) : list N :=
  if cp <? 128 then [cp]
  else if cp <? 2048 then [192 + cp / 64; 128 + cp mod 64]
  else if cp <? 65536 then
    [224 + cp / 4096; 128 + (cp / 64) mod 64; 128 + cp mod 64]
  else
    [240 + cp / 262144; 128 + (cp / 4096) mod 64;
     128 + (cp / 64) mod 64; 128 + cp mod 64].

Definition is_lead (c : N) : bool := (55296 <=? c) && (c <=? 56319).
Definition is_trail (c : N) : bool := (56320 <=? c) && (c <=? 57343).

Definition pct_all (bs : list N) : jsstring := flat_map pct bs.

(** [encodeURIComponent(str)]; [None] stands for the [URIError] thrown on
    an unpaired surrogate. *)
Fixpoint encodeURIComponent (s : jsstring) : option jsstring :=
  match s with
  | [] => Some []
  | c :: rest =>
      if uri_unescaped c then
        r ← encodeURIComponent rest; Some (c :: r)
      else if is_lead c then
        match rest with
        | d :: rest' =>
            if is_trail d then
              r ← encodeURIComponent rest';
              Some (pct_all (utf8 ((c - 55296) * 1024 + (d - 56320) + 65536))
                    ++ r)
            else None
        | [] => None
        end
      else if is_trail c then None
      else r ← encodeURIComponent rest; Some (pct_all (utf8 c) ++ r)
  end.

(** [n.toString(16).toUpperCase()]: the hexadecimal digits of [n], most
    significant first, without padding.  The fuel is the bit length of [n],
    which bounds the number of digits. *)
Fixpoint hex_upper (fuel : nat) (n : N) (acc : jsstring) : jsstring :=
  match fuel with
  | O => acc
  | S fuel' =>
      if n <? 16 then hex_digit n :: acc
      else hex_upper fuel' (n / 16) (hex_digit (n mod 16) :: acc)
  end.

Definition toString16Upper (n : N) : jsstring :=
  hex_upper (S (N.to_nat (N.log2 n))) n [].

(** Line 33: [.replace(/[!'()*]/g, c => '%' + c.charCodeAt(0).toString(16).toUpperCase())] *)
Definition escape_extra (s : jsstring) : jsstring :=
  flat_map (fun c => if is_extra c then 37 :: toString16Upper c else [c]) s.

Definition encodeRFC3986 (str : jsstring) : option jsstring :=
  escape_extra <$> encodeURIComponent str.

End Uri.

Import Uri.

(** ** The canonical query string: [buildQueryString] (lines 36-53) *)

Module QueryString.

(** A value of the query bag handed to [buildQueryString]: the signer's
    [QueryParameterBag] holds strings, arrays of strings and [null]; a
    property can also be [undefined].  On strings [String(x)] is the
    identity, which is how lines 44 and 49 are read here. *)
Inductive qvalue :=
  | QUndefined
  | QNull
  | QStr (s : jsstring)
  | QArr (vs : list jsstring).

(** [Object.keys(query)]: the own keys, each once.  Their order does not
    matter to the caller, which sorts them. *)
Definition Object_keys (query : gmap jsstring qvalue) : list jsstring :=
  (map_to_list query).*1.

(** [`${encodeRFC3986(k)}=${encodeRFC3986(v)}`] *)
Definition pair_string (k v : jsstring) : option jsstring :=
  ek ← encodeRFC3986 k; ev ← encodeRFC3986 v; Some (ek ++ lit "=" ++ ev).

(** Lines 45-47: the inner loop over the sorted values of one key. *)
Fixpoint push_values (k : jsstring) (vals : list jsstring)
    (pairs : list jsstring) : option (list jsstring) :=
  match vals with
  | [] => Some pairs
  | vv :: vals' =>
      p ← pair_string k vv; push_values k vals' (pairs ++ [p])
  end.

(** Lines 39-51: the loop over the sorted keys. *)
Fixpoint push_keys (query : gmap jsstring qvalue) (keys : list jsstring)
    (pairs : list jsstring) : option (list jsstring) :=
  match keys with
  | [] => Some pairs
  | k :: keys' =>
      match query !! k with
      | None | Some QUndefined | Some QNull => push_keys query keys' pairs
      | Some (QArr v) =>
          pairs' ← push_values k (sort v) pairs; push_keys query keys' pairs'
      | Some (QStr v) =>
          p ← pair_string k v; push_keys query keys' (pairs ++ [p])
      end
  end.

(** [buildQueryString(query)]; [None] in the argument is a missing bag
    ([query || {}]), [None] in the result the [URIError] of the encoder. *)
Definition buildQueryString (query : option (gmap jsstring qvalue))
    : option jsstring :=
  let q := default ∅ query in
  let keys := sort (Object_keys q) in
  pairs ← push_keys q keys [];
  Some (join (lit "&") pairs).

(** Reading a query string back: the pieces between [&], each cut at its
    first [=].  Used to state what the string lists. *)
Fixpoint split_on (sep : N) (s : jsstring) (cur : jsstring)
    : list jsstring :=
  match s with
  | [] => [cur]
  | c :: s' =>
      if c =? sep then cur :: split_on sep s' []
      else split_on sep s' (cur ++ [c])
  end.

Fixpoint cut_at (sep : N) (s : jsstring) (cur : jsstring)
    : jsstring * jsstring :=
  match s with
  | [] => (cur, [])
  | c :: s' => if c =? sep then (cur, s') else cut_at sep s' (cur ++ [c])
  end.

Definition parse_qs (s : jsstring) : list (jsstring * jsstring) :=
  match s with
  | [] => []
  | _ => map (fun p => cut_at 61 p []) (split_on 38 s [])
  end.

(** A code unit that is neither [&] nor [=]. *)
Definition plain (c : N) : Prop := c ≠ 38 ∧ c ≠ 61.

(** What the string is built from: for each key the values it contributes,
    in the order they are pushed; the key/value pairs of these groups; a
    pair percent-encoded; a pair written out. *)
Definition group (query : gmap jsstring qvalue) (k : jsstring)
    : option (jsstring * list jsstring) :=
  match query !! k with
  | Some (QStr v) => Some (k, [v])
  | Some (QArr vs) => Some (k, sort vs)
  | _ => None
  end.

Definition expand (groups : list (jsstring * list jsstring))
    : list (jsstring * jsstring) :=
  flat_map (fun g => (fun v => (g.1, v)) <$> g.2) groups.

Definition encode_pair (p : jsstring * jsstring)
    : option (jsstring * jsstring) :=
  ek ← encodeRFC3986 p.1; ev ← encodeRFC3986 p.2; Some (ek, ev).

Definition pair_text (p : jsstring * jsstring) : jsstring :=
  p.1 ++ lit "=" ++ p.2.

End QueryString.

Import QueryString.


(** ** JavaScript values as they arrive from JSON *)

Module Value.

(** A JavaScript number.  The gateway only tests numbers for truthiness and
    copies them, so a finite number is kept as the rational it denotes. *)
Inductive number :=
  | Num (q : Q)
  | NaN
  | Infinity (negative : bool).

Inductive value :=
  | VUndefined
  | VNull
  | VBool (b : bool)
  | VNum (n : number)
  | VStr (s : jsstring)
  | VArr (elems : list value)
  | VObj (props : list (jsstring * value)).

Definition number_truthy (n : number) : bool :=
  match n with
  | Num q => negb (Qnum q =? 0)%Z
  | NaN => false
  | Infinity _ => true
  end.

(** [ToBoolean(v)]: what [!v], [v || d] and [v && w] test. *)
Definition truthy (v : value) : bool :=
  match v with
  | VUndefined | VNull => false
  | VBool b => b
  | VNum n => number_truthy n
  | VStr s => match s with [] => false | _ => true end
  | VArr _ | VObj _ => true
  end.

Definition nullish (v : value) : bool :=
  match v with VUndefined | VNull => true | _ => false end.

(** [a || b] and [a ?? b] *)
Definition or_else (a b : value) : value := if truthy a then a else b.
Definition coalesce (a b : value) : value := if nullish a then b else a.

Definition of_nat (n : nat) : value := VNum (Num (inject_Z (Z.of_nat n))).
Definition of_Z (z : Z) : value := VNum (Num (inject_Z z)).

(** The array index a property key denotes, if it is a canonical one:
    decimal digits without a leading zero. *)
Fixpoint digits_value (ds : jsstring) (acc : N) : option N :=
  match ds with
  | [] => Some acc
  | d :: ds' =>
      if (48 <=? d) && (d <=? 57) then digits_value ds' (acc * 10 + (d - 48))
      else None
  end.

Definition index_of_key (k : jsstring) : option nat :=
  match k with
  | [] => None
  | [48] => Some O
  | 48 :: _ => None
  | _ => N.to_nat <$> digits_value k 0
  end.

Fixpoint assoc (k : jsstring) (props : list (jsstring * value)) : value :=
  match props with
  | [] => VUndefined
  | (k', v) :: props' => if decide (k = k') then v else assoc k props'
  end.

(** [v[k]] for a value that came from JSON: own properties, array elements
    and lengths, string characters.  [None] is the [TypeError] of reading a
    property of [null] or [undefined].  Inherited methods are not values of
    this model; the gateway reads none. *)
Definition get (v : value) (k : jsstring) : option value :=
  match v with
  | VUndefined | VNull => None
  | VBool _ | VNum _ => Some VUndefined
  | VStr s =>
      if decide (k = lit "length") then Some (of_nat (length s))
      else match index_of_key k with
           | Some i => Some (from_option (fun c => VStr [c]) VUndefined (s !! i))
           | None => Some VUndefined
           end
  | VArr elems =>
      if decide (k = lit "length") then Some (of_nat (length elems))
      else match index_of_key k with
           | Some i => Some (default VUndefined (elems !! i))
           | None => Some VUndefined
           end
  | VObj props => Some (assoc k props)
  end.

(** [v?.k] *)
Definition get_opt (v : value) (k : jsstring) : value :=
  default VUndefined (get v k).

(** The strings a [for (const c of str)] loop yields: one per code point,
    a well-formed surrogate pair staying together. *)
Fixpoint code_points (s : jsstring) : list jsstring :=
  match s with
  | [] => []
  | c :: rest =>
      match rest with
      | d :: rest' =>
          if is_lead c && is_trail d then [c; d] :: code_points rest'
          else [c] :: code_points rest
      | [] => [[c]]
      end
  end.

(** [for (const r of v)]: the values the loop visits, or [None] for the
    [TypeError] of a value that is not iterable. *)
Definition iterate (v : value) : option (list value) :=
  match v with
  | VArr elems => Some elems
  | VStr s => Some (VStr <$> code_points s)
  | _ => None
  end.

End Value.

Import Value.

(** ** Transcript extraction: [extractTranscriptParts] (lines 114-129) *)

Module Transcript.

Record TranscriptSegment := {
  text : value;
  isPartial : bool;
  startTime : value;
  endTime : value;
}.

(** Line 118: [r.Alternatives && r.Alternatives[0] ? r.Alternatives[0] : null] *)
Definition first_alternative (r : value) : option value :=
  alternatives ← get r (lit "Alternatives");
  if truthy alternatives then
    first ← get alternatives (lit "0");
    Some (if truthy first then first else VNull)
  else Some VNull.

(** Line 119: [alt?.Transcript || ""] *)
Definition alternative_text (alt : value) : value :=
  or_else (get_opt alt (lit "Transcript")) (VStr []).

(** Lines 121-126: the object pushed for a result with text. *)
Definition segment_of (r text : value) : option TranscriptSegment :=
  partial ← get r (lit "IsPartial");
  st ← get r (lit "StartTime");
  et ← get r (lit "EndTime");
  Some {| text := text;
          isPartial := truthy partial;
          startTime := coalesce st VNull;
          endTime := coalesce et VNull |}.

(** Lines 117-127: the loop, [out] being the array pushed to. *)
Fixpoint for_results (results : list value) (out : list TranscriptSegment)
    : option (list TranscriptSegment) :=
  match results with
  | [] => Some out
  | r :: rest =>
      alt ← first_alternative r;
      let text := alternative_text alt in
      if negb (truthy text) then for_results rest out
      else seg ← segment_of r text; for_results rest (out ++ [seg])
  end.

(** Line 115: [json?.Transcript?.Results || []] *)
Definition results_of (json : value) : value :=
  or_else (get_opt (get_opt json (lit "Transcript")) (lit "Results"))
          (VArr []).

(** [extractTranscriptParts(json)]; [None] is a [TypeError] raised by the
    function. *)
Definition extractTranscriptParts (json : value)
    : option (list TranscriptSegment) :=
  results ← iterate (results_of json);
  for_results results [].

End Transcript.

Import Transcript.

(** ** Node buffers: base64 and UTF-8 *)

Module Buffer.

Definition byte_of_N (n : N) : byte :=
  default x00 (Byte.of_N (n mod 256)).

(** The value of a base64 character.  Node reads both the standard alphabet
    ([+ /]) and the URL-safe one ([- _]). *)
Definition unbase64 (c : N) : option N :=
  if (65 <=? c) && (c <=? 90) then Some (c - 65)
  else if (97 <=? c) && (c <=? 122) then Some (c - 71)
  else if (48 <=? c) && (c <=? 57) then Some (c + 4)
  else if (c =? 43) || (c =? 45) then Some 62
  else if (c =? 47) || (c =? 95) then Some 63
  else None.

(** The 6-bit values of a base64 string as Node collects them: characters
    outside the alphabet are skipped and the first [=] ends the input. *)
Fixpoint sextets (s : jsstring) : list N :=
  match s with
  | [] => []
  | c :: s' =>
      if c =? 61 then []
      else match unbase64 c with
           | Some v => v :: sextets s'
           | None => sextets s'
           end
  end.

(** Four 6-bit values make three bytes; a last group of three makes two
    bytes and one of two makes one. *)
Fixpoint bytes_of_sextets (vs : list N) : list byte :=
  match vs with
  | a :: b :: c :: d :: vs' =>
      byte_of_N (a * 4 + b / 16)
      :: byte_of_N ((b mod 16) * 16 + c / 4)
      :: byte_of_N ((c mod 4) * 64 + d)
      :: bytes_of_sextets vs'
  | [a; b; c] =>
      [byte_of_N (a * 4 + b / 16); byte_of_N ((b mod 16) * 16 + c / 4)]
  | [a; b] => [byte_of_N (a * 4 + b / 16)]
  | _ => []
  end.

(** [Buffer.from(str, "base64")] on a string; it never throws. *)
Definition from_base64 (s : jsstring) : list byte :=
  bytes_of_sextets (sextets s).

(** The standard base64 text of a byte sequence (RFC 4648, padded): what a
    client sends as [chunkBase64], and the reference for "valid base64". *)
Definition base64_char (v : N) : N :=
  if v <? 26 then 65 + v
  else if v <? 52 then 71 + v
  else if v <? 62 then v - 4
  else if v =? 62 then 43
  else 47.

Fixpoint to_base64 (bs : list byte) : jsstring :=
  match bs with
  | [] => []
  | [x] =>
      let a := Byte.to_N x in
      [base64_char (a / 4); base64_char ((a mod 4) * 16); 61; 61]
  | [x; y] =>
      let a := Byte.to_N x in
      let b := Byte.to_N y in
      [base64_char (a / 4); base64_char ((a mod 4) * 16 + b / 16);
       base64_char ((b mod 16) * 4); 61]
  | x :: y :: z :: bs' =>
      let a := Byte.to_N x in
      let b := Byte.to_N y in
      let c := Byte.to_N z in
      base64_char (a / 4)
      :: base64_char ((a mod 4) * 16 + b / 16)
      :: base64_char ((b mod 16) * 4 + c / 64)
      :: base64_char (c mod 64)
      :: to_base64 bs'
  end.

(** [buf.toString("utf8")]: UTF-8 decoding that replaces every ill-formed
    sequence by U+FFFD (maximal subpart) and writes code points above
    U+FFFF as surrogate pairs. *)
Definition utf16 (cp : N) : jsstring :=
  if cp <? 65536 then [cp]
  else [55296 + (cp - 65536) / 1024; 56320 + (cp - 65536) mod 1024].

(** Decoder state inside a multi-byte sequence: the code point so far, the
    continuation bytes still needed, and the range allowed for the next. *)
Record pending := {
  acc : N;
  needed : nat;
  lower : N;
  upper : N;
}.

(** A byte read outside a sequence: the characters it completes and the
    sequence it opens. *)
Definition utf8_lead (b : N) : jsstring * option pending :=
  if b <? 128 then ([b], None)
  else if (194 <=? b) && (b <=? 223) then
    ([], Some {| acc := b mod 32; needed := 1; lower := 128; upper := 191 |})
  else if (224 <=? b) && (b <=? 239) then
    ([], Some {| acc := b mod 16; needed := 2;
                 lower := if b =? 224 then 160 else 128;
                 upper := if b =? 237 then 159 else 191 |})
  else if (240 <=? b) && (b <=? 244) then
    ([], Some {| acc := b mod 8; needed := 3;
                 lower := if b =? 240 then 144 else 128;
                 upper := if b =? 244 then 143 else 191 |})
  else ([65533], None).

Fixpoint utf8_decode (bs : list byte) (st : option pending) : jsstring :=
  match bs with
  | [] => match st with Some _ => [65533] | None => [] end
  | x :: bs' =>
      let b := Byte.to_N x in
      match st with
      | None =>
          let '(out, st') := utf8_lead b in out ++ utf8_decode bs' st'
      | Some p =>
          if (lower p <=? b) && (b <=? upper p) then
            let cp := acc p * 64 + b mod 64 in
            match needed p with
            | S (S n) =>
                utf8_decode bs'
                  (Some {| acc := cp; needed := S n;
                           lower := 128; upper := 191 |})
            | _ => utf16 cp ++ utf8_decode bs' None
            end
          else
            let '(out, st') := utf8_lead b in
            65533 :: out ++ utf8_decode bs' st'
      end
  end.

Definition toString_utf8 (bs : list byte) : jsstring := utf8_decode bs None.

(** The bytes of an ASCII literal. *)
Definition bytes_of (s : string) : list byte :=
  map byte_of_ascii (list_ascii_of_string s).

End Buffer.

Import Buffer.

(** ** The event-stream frame codec *)

Module EventStream.

#[global] Instance byte_eq_decision : EqDecision byte := Byte.byte_eq_dec.

(** Modelled from the spec: the encoder and decoder of the event-stream
    codec, which [server.js] only calls (the marshaller of line 29 comes
    from a package).  The frame layout is the one of the specification: a
    total-length prefix, a headers-length prefix, a prelude checksum, the
    header block (for each header its name length, its name, a type tag and
    the typed value), the payload and a trailing message checksum.  The
    specification fixes neither the width of a length prefix nor the
    checksum nor the tag of a string, so they are the fields of [Format];
    a string value is its length followed by its bytes, and names and
    values are byte strings. *)
Class Format := {
  total_width : nat;
  headers_width : nat;
  name_width : nat;
  value_width : nat;
  string_tag : byte;
  checksum_width : nat;
  checksum : list byte → list byte;
  checksum_length : ∀ bs, length (checksum bs) = checksum_width;
}.

(** The [w] bytes of [n], most significant first. *)
Fixpoint be (w : nat) (n : N) : list byte :=
  match w with
  | O => []
  | S w' => be w' (n / 256) ++ [byte_of_N n]
  end.

Definition un_be (bs : list byte) : N :=
  fold_left (fun a b => a * 256 + Byte.to_N b) bs 0.

(** A length prefix of [w] bytes; a length that does not fit has none. *)
Definition prefix (w : nat) (len : nat) : option (list byte) :=
  if decide (N.of_nat len < 256 ^ N.of_nat w) then Some (be w (N.of_nat len))
  else None.

(** Reading a prefix of [w] bytes off the front of [bs]. *)
Definition read (w : nat) (bs : list byte) : option (nat * list byte) :=
  if decide (w ≤ length bs)%nat
  then Some (N.to_nat (un_be (take w bs)), drop w bs)
  else None.

Definition split_exact (n : nat) (bs : list byte)
    : option (list byte * list byte) :=
  if decide (n ≤ length bs)%nat then Some (take n bs, drop n bs) else None.

(** Modelled from the spec: a frame's headers and payload. *)
Record Frame := {
  frame_headers : list (list byte * list byte);
  frame_payload : list byte;
}.

Section Codec.

Context `{Format}.

(** Modelled from the spec: one entry of the header block. *)
Definition encode_header (h : list byte * list byte) : option (list byte) :=
  nl ← prefix name_width (length h.1);
  vl ← prefix value_width (length h.2);
  Some (nl ++ h.1 ++ [string_tag] ++ vl ++ h.2).

(** Modelled from the spec: the header block. *)
Fixpoint encode_headers (hs : list (list byte * list byte))
    : option (list byte) :=
  match hs with
  | [] => Some []
  | h :: hs' =>
      e ← encode_header h; es ← encode_headers hs'; Some (e ++ es)
  end.

(** Modelled from the spec: [encode(headers, payload)]. *)
Definition encode (m : Frame) : option (list byte) :=
  block ← encode_headers (frame_headers m);
  let total := (total_width + headers_width + checksum_width
                + length block + length (frame_payload m)
                + checksum_width)%nat in
  tl ← prefix total_width total;
  hl ← prefix headers_width (length block);
  let prelude := tl ++ hl in
  let message := prelude ++ checksum prelude ++ block ++ frame_payload m in
  Some (message ++ checksum message).

(** Modelled from the spec: the header block read back.  Every entry has
    at least its tag byte, so the length of the block is fuel enough. *)
Fixpoint decode_headers (fuel : nat) (block : list byte)
    : option (list (list byte * list byte)) :=
  match block with
  | [] => Some []
  | _ =>
      match fuel with
      | O => None
      | S fuel' =>
          '(nl, r1) ← read name_width block;
          '(name, r2) ← split_exact nl r1;
          match r2 with
          | tag :: r3 =>
              if decide (tag = string_tag) then
                '(vl, r4) ← read value_width r3;
                '(value, r5) ← split_exact vl r4;
                hs ← decode_headers fuel' r5;
                Some ((name, value) :: hs)
              else None
          | [] => None
          end
      end
  end.

(** Modelled from the spec: [decode(frame bytes)]; [None] is the
    DecodeError of a truncated or malformed frame. *)
Definition decode (frame : list byte) : option Frame :=
  '(total, r1) ← read total_width frame;
  if decide (total = length frame) then
    '(hlen, r2) ← read headers_width r1;
    '(sum, r3) ← split_exact checksum_width r2;
    if decide (sum = checksum (take (total_width + headers_width) frame)) then
      '(block, r4) ← split_exact hlen r3;
      '(payload, trailer) ← split_exact (length r4 - checksum_width) r4;
      if decide (trailer
                 = checksum (take (length frame - checksum_width) frame)) then
        hs ← decode_headers (length block) block;
        Some {| frame_headers := hs; frame_payload := payload |}
      else None
    else None
  else None.

End Codec.

(** CRC-32 (reflected, polynomial [0xEDB88320]), the checksum of the
    event-stream wire format the upstream endpoint speaks. *)
Definition crc_bit (c : N) : N :=
  if N.odd c then N.lxor (c / 2) 3988292384 else c / 2.

Definition crc_byte (crc : N) (b : byte) : N :=
  let c := N.lxor crc (Byte.to_N b) in
  crc_bit (crc_bit (crc_bit (crc_bit (crc_bit (crc_bit (crc_bit (crc_bit c))))))).

Definition crc32 (bs : list byte) : N :=
  N.lxor (fold_left crc_byte bs 4294967295) 4294967295.

Definition crc32_bytes (bs : list byte) : list byte := be 4 (crc32 bs).

End EventStream.

Import EventStream.

(** ** The per-connection session (lines 139-238) *)

Module Session.

(** [ws.readyState] *)
Inductive readyState := CONNECTING | OPEN | CLOSING | CLOSED.

#[global] Instance readyState_eq_dec : EqDecision readyState.
Proof. solve_decision. Defined.

(** A message of the event-stream marshaller: [{ headers, body }].  Every
    header of this system is string-typed, so a header is kept as its name
    and the string in its [value] field. *)
Record Message := {
  headers : list (jsstring * jsstring);
  body : list byte;
}.

(** What the handlers call and [server.js] does not define: the marshaller
    of [@aws-sdk/eventstream-marshaller], [JSON.parse], and [Buffer.from]
    on a value that is not a primitive.  [None] is a thrown exception. *)
Class Runtime := {
  marshall : Message → option (list byte);
  unmarshall : list byte → option Message;
  JSON_parse : jsstring → option value;
  Buffer_from_object : value → option (list byte);
}.

(** What a handler does to the outside. *)
Inductive Effect :=
  | Emit (event : jsstring) (payload : value)
      (** [socket.emit(event, payload)] *)
  | Presign (languageCode sampleRate mediaEncoding : value)
      (** the call of [buildTranscribePresignedUrl], one signing attempt *)
  | WsNew (c : nat) (url : jsstring)
      (** [new WebSocket(url, ...)], the connection being numbered [c] *)
  | WsSend (c : nat) (data : list byte)
      (** [ws.send(data)] *)
  | WsClose (c : nat) (code : Z) (reason : jsstring)
      (** [ws.close(code, reason)] *)
  | Uncaught (error : jsstring)
      (** an exception that leaves the handler *).

(** What the session reacts to: the four client messages, the outcome of
    the awaited signing, and the callbacks of an upstream connection. *)
Inductive Event :=
  | ClientStart (msg : value)
  | ClientAudio (msg : value)
  | ClientStop
  | ClientDisconnect
  | Presigned (url : jsstring)
      (** line 156 resolves and [new WebSocket] returns *)
  | StartFailed (message : jsstring)
      (** an exception reaches the [catch] of line 196;
          [message] is [String(e?.message || e)] *)
  | WsOpened (c : nat)
  | WsMessage (c : nat) (data : list byte)
  | WsClosed (c : nat) (code : Z) (reason : jsstring)
      (** [reason] is [reason?.toString?.() || ""] *)
  | WsError (c : nat) (message : jsstring)
      (** [message] is [String(e?.message || e)] *).

(** The variables of the connection closure (lines 142-143) and the
    upstream connections created so far, each with its [readyState]; [ws]
    refers to one of them by its position. *)
Record Session := {
  ws : option nat;
  started : bool;
  sockets : list readyState;
}.

Definition initial : Session :=
  {| ws := None; started := false; sockets := [] |}.

Definition set_ready (c : nat) (r : readyState) (s : Session) : Session :=
  {| ws := ws s; started := started s; sockets := <[c := r]> (sockets s) |}.

(** Lines 187-188, 193-194, 198-199, 229-230: [started = false; ws = null]. *)
Definition reset (s : Session) : Session :=
  {| ws := None; started := false; sockets := sockets s |}.

(** [ws && ws.readyState === WebSocket.OPEN], with the connection. *)
Definition open_upstream (s : Session) : option nat :=
  c ← ws s;
  if decide (sockets s !! c = Some OPEN) then Some c else None.

Definition upstream_open (s : Session) : bool :=
  bool_decide (is_Some (open_upstream s)).

(** A handler parameter with the default [msg = {}]. *)
Definition default_arg (msg : value) : value :=
  match msg with VUndefined => VObj [] | _ => msg end.

Definition status (fields : list (jsstring * value)) : Effect :=
  Emit (lit "status") (VObj fields).

Definition error_event (message : jsstring) : Effect :=
  Emit (lit "error") (VObj [(lit "message", VStr message)]).

Definition segment_value (p : TranscriptSegment) : value :=
  VObj [(lit "text", text p);
        (lit "isPartial", VBool (isPartial p));
        (lit "startTime", startTime p);
        (lit "endTime", endTime p)].

(** The headers of an outbound audio frame (lines 211-215). *)
Definition audio_headers : list (jsstring * jsstring) :=
  [(lit ":message-type", lit "event");
   (lit ":event-type", lit "AudioEvent");
   (lit ":content-type", lit "application/octet-stream")].

(** [headers[name]?.value] *)
Fixpoint header (name : jsstring) (hs : list (jsstring * jsstring))
    : option jsstring :=
  match hs with
  | [] => None
  | (n, v) :: hs' => if decide (name = n) then Some v else header name hs'
  end.

Section Handlers.

Context `{Runtime}.

(** [parseJsonBody] (lines 105-112) *)
Definition parseJsonBody (bodyBytes : list byte) : value :=
  default VNull (JSON_parse (toString_utf8 bodyBytes)).

(** [Buffer.from(b64, "base64")] on a truthy value: a string is decoded, a
    number or boolean is a [TypeError]. *)
Definition Buffer_from (b64 : value) : option (list byte) :=
  match b64 with
  | VStr s => Some (from_base64 s)
  | VArr _ | VObj _ => Buffer_from_object b64
  | _ => None
  end.

(** [socket.on("start")], up to the [await] of line 156. *)
Definition on_start (msg : value) (s : Session) : Session * list Effect :=
  if started s then (s, [])
  else
    let s' := {| ws := ws s; started := true; sockets := sockets s |} in
    match get (default_arg msg) (lit "languageCode"),
          get (default_arg msg) (lit "sampleRateHertz") with
    | Some lc, Some sr =>
        let languageCode := or_else lc (VStr (lit "en-US")) in
        let sampleRate := or_else sr (of_Z 16000) in
        let mediaEncoding := VStr (lit "pcm") in
        (s', [status [(lit "state", VStr (lit "starting"));
                      (lit "languageCode", languageCode);
                      (lit "sampleRate", sampleRate)];
              Presign languageCode sampleRate mediaEncoding])
    | _, _ => (s', [Uncaught (lit "TypeError")])
    end.

(** Lines 157-195: the connection is created and stored in [ws]; its
    callbacks are the [WsOpened], [WsMessage], [WsClosed] and [WsError]
    cases of [step]. *)
Definition on_presigned (url : jsstring) (s : Session)
    : Session * list Effect :=
  let c := length (sockets s) in
  ({| ws := Some c; started := started s;
      sockets := sockets s ++ [CONNECTING] |},
   [WsNew c url]).

(** Lines 196-200 *)
Definition on_start_failed (message : jsstring) (s : Session)
    : Session * list Effect :=
  (reset s, [error_event message]).

(** Line 159 *)
Definition on_open (c : nat) (s : Session) : Session * list Effect :=
  (set_ready c OPEN s, [status [(lit "state", VStr (lit "streaming"))]]).

(** Lines 161-183; the [try] swallows whatever is thrown. *)
Definition on_message (data : list byte) : list Effect :=
  match unmarshall data with
  | None => []
  | Some m =>
      let messageType := header (lit ":message-type") (headers m) in
      let eventType := header (lit ":event-type") (headers m) in
      if decide (messageType = Some (lit "event")
                 ∧ eventType = Some (lit "TranscriptEvent")) then
        match extractTranscriptParts (parseJsonBody (body m)) with
        | Some parts =>
            (fun p => Emit (lit "transcript") (segment_value p)) <$> parts
        | None => []
        end
      else if decide (messageType = Some (lit "exception")) then
        let errTxt := toString_utf8 (body m) in
        let shown :=
          match eventType with
          | Some ((_ :: _) as t) => t
          | _ => lit "Unknown"
          end in
        [error_event (lit "Transcribe exception: " ++ shown ++ lit " " ++ errTxt)]
      else []
  end.

(** Lines 185-189 *)
Definition on_close (c : nat) (code : Z) (reason : jsstring) (s : Session)
    : Session * list Effect :=
  (reset (set_ready c CLOSED s),
   [status [(lit "state", VStr (lit "ended"));
            (lit "code", of_Z code);
            (lit "reason", VStr reason)]]).

(** Lines 191-195 *)
Definition on_error (message : jsstring) (s : Session)
    : Session * list Effect :=
  (reset s, [error_event message]).

(** [socket.on("audio")] (lines 203-222) *)
Definition on_audio (msg : value) (s : Session) : Session * list Effect :=
  match open_upstream s with
  | None => (s, [])
  | Some c =>
      match get (default_arg msg) (lit "chunkBase64") with
      | None => (s, [Uncaught (lit "TypeError")])
      | Some b64 =>
          if negb (truthy b64) then (s, [])
          else
            match Buffer_from b64 with
            | None => (s, [error_event (lit "Bad audio chunk")])
            | Some audioBytes =>
                match marshall {| headers := audio_headers;
                                  body := audioBytes |} with
                | None => (s, [error_event (lit "Bad audio chunk")])
                | Some payload => (s, [WsSend c payload])
                end
            end
      end
  end.

(** Lines 225-227 and 234-236: [ws.close(code, reason)] on an open
    connection, which moves it to [CLOSING]. *)
Definition close_if_open (code : Z) (reason : jsstring) (s : Session)
    : Session * list Effect :=
  match open_upstream s with
  | Some c => (set_ready c CLOSING s, [WsClose c code reason])
  | None => (s, [])
  end.

(** [socket.on("stop")] (lines 224-231) *)
Definition on_stop (s : Session) : Session * list Effect :=
  let '(s', closing) := close_if_open 1000 (lit "client stop") s in
  (reset s', closing ++ [status [(lit "state", VStr (lit "stopping"))]]).

(** [socket.on("disconnect")] (lines 233-237) *)
Definition on_disconnect (s : Session) : Session * list Effect :=
  close_if_open 1001 (lit "client disconnect") s.

Definition step (e : Event) (s : Session) : Session * list Effect :=
  match e with
  | ClientStart msg => on_start msg s
  | ClientAudio msg => on_audio msg s
  | ClientStop => on_stop s
  | ClientDisconnect => on_disconnect s
  | Presigned url => on_presigned url s
  | StartFailed message => on_start_failed message s
  | WsOpened c => on_open c s
  | WsMessage c data => (s, on_message data)
  | WsClosed c code reason => on_close c code reason s
  | WsError c message => on_error message s
  end.

(** A run of the session: the events in order, with what they emit. *)
Fixpoint run (es : list Event) (s : Session) : Session * list Effect :=
  match es with
  | [] => (s, [])
  | e :: es' =>
      let '(s', out) := step e s in
      let '(s'', out') := run es' s' in
      (s'', out ++ out')
  end.

End Handlers.

(** The events that put the session back to idle: a stop, the close or
    error of an upstream connection, a failed start. *)
Definition resets (e : Event) : bool :=
  match e with
  | ClientStop | StartFailed _ | WsClosed _ _ _ | WsError _ _ => true
  | _ => false
  end.

(** The effects that are signing attempts. *)
Definition is_presign (x : Effect) : bool :=
  match x with Presign _ _ _ => true | _ => false end.

End Session.

Import Session.

(** ** Concrete inputs and a concrete runtime

    The handlers are stated for every [Runtime].  The instance below is the
    one used to run them on concrete inputs: the marshaller is the codec
    above in the wire format of the upstream endpoint (4-byte lengths, a
    1-byte name length, type tag 7 and a 2-byte length for strings, CRC-32
    checksums), with header strings carried as UTF-8. *)

Module Wire.

(** [fromUtf8]: the UTF-8 bytes of a string, an unpaired surrogate being
    written as U+FFFD. *)
Fixpoint fromUtf8 (s : jsstring) : list byte :=
  match s with
  | [] => []
  | c :: rest =>
      if is_lead c then
        match rest with
        | d :: rest' =>
            if is_trail d then
              (byte_of_N <$> utf8 ((c - 55296) * 1024 + (d - 56320) + 65536))
              ++ fromUtf8 rest'
            else [xef; xbf; xbd] ++ fromUtf8 rest
        | [] => [xef; xbf; xbd]
        end
      else if is_trail c then [xef; xbf; xbd] ++ fromUtf8 rest
      else (byte_of_N <$> utf8 c) ++ fromUtf8 rest
  end.

Definition wire_format : Format :=
  {| total_width := 4;
     headers_width := 4;
     name_width := 1;
     value_width := 2;
     string_tag := x07;
     checksum_width := 4;
     checksum := crc32_bytes;
     checksum_length := fun _ => eq_refl |}.

Definition frame_of_message (m : Message) : Frame :=
  {| frame_headers := (fun h => (fromUtf8 h.1, fromUtf8 h.2)) <$> headers m;
     frame_payload := body m |}.

Definition message_of_frame (f : Frame) : Message :=
  {| headers :=
       (fun h => (toString_utf8 h.1, toString_utf8 h.2)) <$> frame_headers f;
     body := frame_payload f |}.

Definition wire_runtime : Runtime :=
  {| marshall := fun m => @encode wire_format (frame_of_message m);
     unmarshall := fun data => message_of_frame <$> @decode wire_format data;
     JSON_parse := fun _ => None;
     Buffer_from_object := fun _ => None |}.

(** An inbound exception frame (scenario C of the specification). *)
Definition exception_message : Message :=
  {| headers := [(lit ":message-type", lit "exception");
                 (lit ":event-type", lit "BadRequestException")];
     body := bytes_of "invalid sample rate" |}.

(** Its bytes on the wire. *)
Definition exception_frame : list byte :=
  Eval vm_compute in default [] (@marshall wire_runtime exception_message).

(** The outbound frame of three zero bytes of audio (scenario B). *)
Definition silence_frame : list byte :=
  Eval vm_compute in
    default [] (@marshall wire_runtime
                  {| headers := audio_headers; body := [x00; x00; x00] |}).

(** A session that is streaming: started, connection 0 open. *)
Definition streaming : Session :=
  {| ws := Some O; started := true; sockets := [OPEN] |}.

(** A query bag with the three parameters the gateway signs, a [null] and
    an array. *)
Definition q_demo : gmap jsstring qvalue :=
  <[lit "sample-rate" := QStr (lit "16000")]>
  (<[lit "language-code" := QStr (lit "en-US")]>
  (<[lit "media-encoding" := QStr (lit "pcm")]>
  (<[lit "skip" := QNull]>
  (<[lit "k" := QArr [lit "{"; lit "a"]]> ∅)))).

(** A transcript payload of three results, the second without text. *)
Definition result_demo (t : string) (partial : bool) : value :=
  VObj [(lit "Alternatives", VArr [VObj [(lit "Transcript", VStr (lit t))]]);
        (lit "IsPartial", VBool partial);
        (lit "StartTime", of_Z 1)].

Definition payload_demo : value :=
  VObj [(lit "Transcript",
         VObj [(lit "Results",
                VArr [result_demo "hello" true; result_demo "" false;
                      result_demo "bye" false])])].

End Wire.

Import Wire.

(** ** Statements of the specification kept as predicates

    Two sentences of the specification do not hold of [server.js] as they
    are written.  They are stated here the way the specification words
    them, so that the code can be compared with them. *)

Module Stated.

(** "The canonical query string has keys in strictly ascending order; for
    any key with multiple values, those values appear in ascending order":
    of two pairs of the string, the earlier has the smaller encoded key, or
    the same key and a value that is not greater. *)
Definition pair_ascending (p1 p2 : jsstring * jsstring) : Prop :=
  Js.lt p1.1 p2.1 ∨ (p1.1 = p2.1 ∧ Js.le p1.2 p2.2).

#[global] Instance pair_ascending_dec p1 p2 : Decision (pair_ascending p1 p2).
Proof. unfold pair_ascending. apply _. Defined.

Definition lists_ascending (s : jsstring) : Prop :=
  StronglySorted pair_ascending (parse_qs s).

(** A key with the two values "{" and "a", and the two keys "{" and "a". *)
Definition query_brace_values : gmap jsstring qvalue :=
  {[ lit "k" := QArr [lit "{"; lit "a"] ]}.

Definition query_brace_keys : gmap jsstring qvalue :=
  <[ lit "{" := QStr (lit "1") ]> {[ lit "a" := QStr (lit "2") ]}.

(** "[started] and connection presence must be changed together on every
    transition": a step changes the flag exactly when it changes whether a
    connection is referenced. *)
Definition owns (s : Session) : bool := bool_decide (is_Some (ws s)).

Definition changed_together (s s' : Session) : Prop :=
  xorb (started s) (started s') = xorb (owns s) (owns s').

(** The exit paths the specification names: stop, disconnect, error,
    close. *)
Definition is_exit (e : Event) : bool :=
  match e with
  | ClientStop | ClientDisconnect | StartFailed _
  | WsClosed _ _ _ | WsError _ _ => true
  | _ => false
  end.

(** "The connection must be released and the [started] flag cleared
    together on every exit path". *)
Definition transition_rule `{Runtime} (e : Event) (s : Session) : Prop :=
  let s' := (step e s).1 in
  changed_together s s' ∧
  (is_exit e = true → started s' = false ∧ ws s' = None).

(** "For each result takes only the first alternative; skips results whose
    text is empty; copies [isPartial] (default false), [startTime],
    [endTime] (absent if not present) verbatim; preserves the original
    result ordering": the segments of a results list, written from these
    words with optional reads throughout. *)
Definition text_of_result (r : value) : value :=
  let first := get_opt (get_opt r (lit "Alternatives")) (lit "0") in
  or_else (get_opt first (lit "Transcript")) (VStr []).

Definition has_text (r : value) : bool := truthy (text_of_result r).

Definition segment_of_result (r : value) : TranscriptSegment :=
  {| text := text_of_result r;
     isPartial := truthy (get_opt r (lit "IsPartial"));
     startTime := coalesce (get_opt r (lit "StartTime")) VNull;
     endTime := coalesce (get_opt r (lit "EndTime")) VNull |}.

Definition segments_of_results (results : list value)
    : list TranscriptSegment :=
  segment_of_result <$> filter has_text results.

(** "[extract] never raises". *)
Definition never_raises (json : value) : Prop :=
  is_Some (extractTranscriptParts json).

(** Two payloads that are JSON and malformed: a results list holding
    [null], and a number where the results list should be. *)
Definition payload_null_result : value :=
  VObj [(lit "Transcript", VObj [(lit "Results", VArr [VNull])])].

Definition payload_number_results : value :=
  VObj [(lit "Transcript", VObj [(lit "Results", of_Z 5)])].

End Stated.

Import Stated.

(** ** The rest of the helpers: well-formed strings, credentials, the URL *)

Module More.

(** [str.isWellFormed()]: no code point of the string is a lone
    surrogate. *)
Definition isWellFormed (s : jsstring) : bool :=
  forallb (fun p => match p with
                    | [c] => negb (is_lead c || is_trail c)
                    | _ => true
                    end)
          (code_points s).

(** The code units a string can hold. *)
Definition code_units (s : jsstring) : Prop := Forall (fun c => c < 65536) s.

(** A character that needs no escape in a URI component, or the percent
    sign. *)
Definition unreserved_or_pct (c : N) : Prop := is_unreserved c = true ∨ c = 37.

(** The value of a code point of [code_points]. *)
Definition point_value (p : jsstring) : N :=
  match p with
  | [c; d] => (c - 55296) * 1024 + (d - 56320) + 65536
  | [c] => c
  | _ => 0
  end.

(** The code points of a well-formed string: one code unit that is not a
    surrogate, or a lead surrogate followed by a trail surrogate. *)
Definition valid_point (p : jsstring) : Prop :=
  (∃ c, p = [c] ∧ c < 65536 ∧ is_lead c = false ∧ is_trail c = false)
  ∨ (∃ c d, p = [c; d] ∧ is_lead c = true ∧ is_trail d = true).

(** RFC 3986 percent-encoding of one code point: an unreserved character
    stays, every other one becomes the [%XX] of its UTF-8 bytes. *)
Definition encode_point (cp : N) : jsstring :=
  if is_unreserved cp then [cp] else pct_all (utf8 cp).

(** A pair the query string has to list: the key with its string value, or
    with one of the values of its array. *)
Definition listed (q : gmap jsstring qvalue) (k v : jsstring) : Prop :=
  q !! k = Some (QStr v) ∨ ∃ vs, q !! k = Some (QArr vs) ∧ v ∈ vs.

(** A bag whose listed keys and array values need no escape. *)
Definition unreserved (s : jsstring) : Prop := forallb is_unreserved s = true.

Definition plain_keys (q : gmap jsstring qvalue) : Prop :=
  ∀ k, match q !! k with
       | Some (QStr _) => unreserved k
       | Some (QArr vs) => unreserved k ∧ Forall unreserved vs
       | _ => True
       end.

(** A group whose key needs no escape and whose values are one string, or
    strings in ascending order that need no escape. *)
Definition plain_group (g : jsstring * list jsstring) : Prop :=
  unreserved g.1
  ∧ ((∃ v, g.2 = [v]) ∨ (Forall unreserved g.2 ∧ StronglySorted Js.le g.2)).

(** [credentialsProvider] (lines 18-26).  The environment maps names to
    strings; [None] in the result is the [Error] thrown at line 23, and
    [Some] the credentials the returned promise resolves to. *)
Record Credentials := {
  accessKeyId : jsstring;
  secretAccessKey : jsstring;
  sessionToken : option jsstring;
}.

Definition credentialsProvider (env : gmap jsstring jsstring)
    : option Credentials :=
  let accessKeyId := env !! lit "AWS_ACCESS_KEY_ID" in
  let secretAccessKey := env !! lit "AWS_SECRET_ACCESS_KEY" in
  let sessionToken := env !! lit "AWS_SESSION_TOKEN" in
  match accessKeyId, secretAccessKey with
  | Some ((_ :: _) as a), Some ((_ :: _) as k) =>
      Some {| accessKeyId := a; secretAccessKey := k;
              sessionToken := sessionToken |}
  | _, _ => None
  end.

(** [String(n)] for a non-negative integer below 10^21: its decimal
    digits.  The fuel is the bit length, which bounds their number. *)
Fixpoint decimal (fuel : nat) (n : N) (acc : jsstring) : jsstring :=
  match fuel with
  | O => acc
  | S fuel' =>
      if n <? 10 then (48 + n) :: acc
      else decimal fuel' (n / 10) ((48 + n mod 10) :: acc)
  end.

Definition String_of_N (n : N) : jsstring :=
  decimal (S (N.to_nat (N.log2 n))) n [].

(** The argument of [formatSignedUrl]: the fields of the signed request it
    reads.  The port is a non-negative integer or [undefined]. *)
Record SignedUrlParts := {
  protocol : jsstring;
  hostname : jsstring;
  port : option N;
  path : jsstring;
  query : option (gmap jsstring qvalue);
}.

(** [formatSignedUrl] (lines 55-58) *)
Definition formatSignedUrl (r : SignedUrlParts) : option jsstring :=
  qs ← buildQueryString (query r);
  Some (protocol r ++ lit "//" ++ hostname r ++ lit ":"
        ++ from_option String_of_N (lit "undefined") (port r)
        ++ path r ++ lit "?" ++ qs).


(** The parts of the Transcribe endpoint (lines 62-65) with a query bag. *)
Definition transcribe_parts (region : jsstring)
    (q : gmap jsstring qvalue) : SignedUrlParts :=
  {| protocol := lit "wss:";
     hostname := lit "transcribestreaming." ++ region ++ lit ".amazonaws.com";
     port := Some 8443;
     path := lit "/stream-transcription-websocket";
     query := Some q |}.

End More.

Import More.

(** ** Runs of the session: what they may target *)

Module Runs.

(** The effects of a run are well targeted from [n] on when the
    connections it creates are numbered [n], [n+1], ... in the order of
    their creation and every [send] and [close] goes to a connection
    numbered below the next one to create. *)
Fixpoint well_targeted (n : nat) (out : list Effect) : Prop :=
  match out with
  | [] => True
  | WsNew c _ :: out' => c = n ∧ well_targeted (S n) out'
  | WsSend c _ :: out' => (c < n)%nat ∧ well_targeted n out'
  | WsClose c _ _ :: out' => (c < n)%nat ∧ well_targeted n out'
  | _ :: out' => well_targeted n out'
  end.

(** The number of connections an effect list creates. *)
Definition is_new (e : Effect) : bool :=
  match e with WsNew _ _ => true | _ => false end.

Definition count_new (out : list Effect) : nat := length (filter is_new out).

(** The close requests among the effects. *)
Definition is_close (e : Effect) : bool :=
  match e with WsClose _ _ _ => true | _ => false end.

(** The reference of a session points to a connection that exists. *)
Definition ws_valid (s : Session) : Prop :=
  ∀ c, ws s = Some c → (c < length (sockets s))%nat.

(** An effect that speaks to the client about a transcript or an error. *)
Definition client_notice (e : Effect) : Prop :=
  ∃ payload, e = Emit (lit "transcript") payload
             ∨ e = Emit (lit "error") payload.

(** The JSON text of [payload_demo], written with ['] for the double
    quote. *)
Definition payload_demo_text : jsstring :=
  (fun c => if c =? 39 then 34 else c)
  <$> lit "{'Transcript':{'Results':[{'Alternatives':[{'Transcript':'hello'}],'IsPartial':true,'StartTime':1},{'Alternatives':[{'Transcript':''}],'IsPartial':false,'StartTime':1},{'Alternatives':[{'Transcript':'bye'}],'IsPartial':false,'StartTime':1}]}}".

(** The wire runtime with a [JSON.parse] that knows this one text. *)
Definition demo_runtime : Runtime :=
  {| marshall := @marshall wire_runtime;
     unmarshall := @unmarshall wire_runtime;
     JSON_parse := fun txt =>
       if decide (txt = payload_demo_text) then Some payload_demo else None;
     Buffer_from_object := fun _ => None |}.

(** An inbound transcript frame carrying that text. *)
Definition transcript_message : Message :=
  {| headers := [(lit ":message-type", lit "event");
                 (lit ":event-type", lit "TranscriptEvent")];
     body := byte_of_N <$> payload_demo_text |}.

Definition transcript_frame : list byte :=
  Eval vm_compute in default [] (@marshall wire_runtime transcript_message).

End Runs.

Import Runs.
(** * Properties *)

Example encodeRFC3986_brace :
  encodeRFC3986 (lit "a{b!*") = Some (lit "a%7Bb%21%2A").
Proof. vm_compute. reflexivity. Qed.

Example buildQueryString_demo :
  buildQueryString (Some q_demo)
  = Some (lit "k=a&k=%7B&language-code=en-US&media-encoding=pcm&sample-rate=16000").
Proof. vm_compute. reflexivity. Qed.

Example parse_demo :
  parse_qs (lit "k=a&k=%7B&x=") = [(lit "k", lit "a"); (lit "k", lit "%7B"); (lit "x", [])].
Proof. vm_compute. reflexivity. Qed.

(** ** The order of the default sort comparator *)

Section StringOrder.

Lemma ltb_irrefl (a : jsstring) : Js.ltb a a = false.
Proof.
  induction a as [|x a IH]; [done|]. simpl. by rewrite N.ltb_irrefl.
Qed.

Lemma ltb_trans (a b c : jsstring) :
  Js.ltb a b = true → Js.ltb b c = true → Js.ltb a c = true.
Proof.
  revert b c. induction a as [|x a IH]; intros [|y b] [|z c]; simpl; try done.
  destruct (N.ltb_spec x y), (N.ltb_spec y x), (N.ltb_spec y z),
    (N.ltb_spec z y), (N.ltb_spec x z); try done; try lia.
  destruct (N.ltb_spec z x); [lia|]. apply IH.
Qed.

(** Two strings neither of which comes before the other are the same
    string. *)
Lemma ltb_antisym (a b : jsstring) :
  Js.ltb a b = false → Js.ltb b a = false → a = b.
Proof.
  revert b. induction a as [|x a IH]; intros [|y b]; simpl; try done.
  destruct (N.ltb_spec x y), (N.ltb_spec y x); try done; try lia.
  intros Hab Hba. f_equal; [lia|]. by apply IH.
Qed.

Lemma ltb_asym (a b : jsstring) : Js.ltb a b = true → Js.ltb b a = false.
Proof.
  intros Hab. destruct (Js.ltb b a) eqn:Hba; [|done].
  pose proof (ltb_trans _ _ _ Hab Hba) as Haa.
  by rewrite ltb_irrefl in Haa.
Qed.

Lemma le_lt_or_eq (a b : jsstring) : Js.le a b ↔ Js.lt a b ∨ a = b.
Proof.
  unfold Js.le, Js.lt. split.
  - intros Hba. destruct (Js.ltb a b) eqn:Hab; [by left|].
    right. by apply ltb_antisym.
  - intros [Hab| ->]; [by apply ltb_asym|apply ltb_irrefl].
Qed.

#[global] Instance jsstring_le_total : Total Js.le.
Proof.
  intros a b. unfold Js.le. destruct (Js.ltb b a) eqn:Hba; [|by left].
  right. by apply ltb_asym.
Qed.

#[global] Instance jsstring_le_trans : Transitive Js.le.
Proof.
  intros a b c. rewrite !le_lt_or_eq. unfold Js.lt.
  intros [Hab| ->] [Hbc| ->]; auto. left. by eapply ltb_trans.
Qed.

#[global] Instance jsstring_le_antisym : AntiSymm eq Js.le.
Proof. intros a b Hab Hba. by apply ltb_antisym. Qed.

#[global] Instance jsstring_lt_trans : Transitive Js.lt.
Proof. intros a b c. apply ltb_trans. Qed.

(** [sort] returns its argument rearranged in ascending order. *)
Lemma sort_sorted (xs : list jsstring) : StronglySorted Js.le (Js.sort xs).
Proof. apply StronglySorted_merge_sort; apply _. Qed.

Lemma sort_permutation (xs : list jsstring) : Js.sort xs ≡ₚ xs.
Proof. apply merge_sort_Permutation. Qed.

(** Without repetition the order is strict. *)
Lemma sorted_nodup_strict (xs : list jsstring) :
  StronglySorted Js.le xs → NoDup xs → StronglySorted Js.lt xs.
Proof.
  induction 1 as [|x xs Hs IH Hall]; intros Hnd; [constructor|].
  apply NoDup_cons in Hnd as [Hx Hnd]. constructor; [by apply IH|].
  rewrite Forall_forall in Hall |- *. intros y Hy.
  destruct (proj1 (le_lt_or_eq x y) (Hall y Hy)) as [Hlt| ->]; done.
Qed.

End StringOrder.

(** ** The canonical query string *)

Section QueryStringFacts.

Lemma mapM_app {A B} (f : A → option B) (l1 l2 : list A) :
  mapM f (l1 ++ l2) = (a ← mapM f l1; b ← mapM f l2; Some (a ++ b)).
Proof.
  induction l1 as [|x l1 IH]; simpl.
  - by destruct (mapM f l2).
  - destruct (f x); simpl; [|done]. rewrite IH.
    destruct (mapM f l1); simpl; [|done]. by destruct (mapM f l2).
Qed.

Lemma mapM_fmap_out {A B C} (f : A → option B) (g : B → C) (l : list A) :
  mapM (fun x => g <$> f x) l = fmap g <$> mapM f l.
Proof.
  induction l as [|x l IH]; [done|]. simpl. destruct (f x); [|done].
  simpl. rewrite IH. by destruct (mapM f l).
Qed.

Lemma mapM_fmap_in {A B C} (f : B → option C) (g : A → B) (l : list A) :
  mapM f (g <$> l) = mapM (fun x => f (g x)) l.
Proof.
  induction l as [|x l IH]; [done|]. csimpl. destruct (f (g x)); [|done].
  csimpl. f_equal. exact IH.
Qed.

Lemma pair_string_encode (k v : jsstring) :
  pair_string k v = pair_text <$> encode_pair (k, v).
Proof.
  unfold pair_string, encode_pair. simpl.
  destruct (encodeRFC3986 k); [|done]. simpl. by destruct (encodeRFC3986 v).
Qed.

(** The inner loop appends the texts of the pairs of one key. *)
Lemma push_values_spec (k : jsstring) (vals pairs : list jsstring) :
  push_values k vals pairs
  = (ps ← mapM (fun v => pair_string k v) vals; Some (pairs ++ ps)).
Proof.
  revert pairs. induction vals as [|v vals IH]; intros pairs; simpl.
  - by rewrite app_nil_r.
  - destruct (pair_string k v) as [p|]; [|done]. simpl. rewrite IH.
    destruct (mapM _ vals); [|done]. simpl. by rewrite <- app_assoc.
Qed.

(** The outer loop appends the texts of the pairs of all groups. *)
Lemma push_keys_spec (q : gmap jsstring qvalue) (keys pairs : list jsstring) :
  push_keys q keys pairs
  = (ps ← mapM (fun p => pair_string p.1 p.2) (expand (omap (group q) keys));
     Some (pairs ++ ps)).
Proof.
  revert pairs. induction keys as [|k keys IH]; intros pairs.
  - simpl. by rewrite app_nil_r.
  - cbn [push_keys omap list_omap]. unfold group at 1.
    destruct (q !! k) as [[| |v|vs]|] eqn:Hk; try apply IH.
    + cbn [expand flat_map fmap list_fmap app fst snd mapM].
      fold (expand (omap (group q) keys)).
      destruct (pair_string k v) as [p|]; [|done]. simpl. rewrite IH.
      destruct (mapM _ (expand _)); [|done]. simpl. by rewrite <- app_assoc.
    + cbn [expand flat_map fst snd]. fold (expand (omap (group q) keys)).
      rewrite mapM_app, push_values_spec.
      rewrite mapM_fmap_in. simpl.
      destruct (mapM _ (sort vs)); [|done]. simpl. rewrite IH.
      destruct (mapM _ (expand _)); [|done]. simpl. by rewrite <- app_assoc.
Qed.

(** The string is the pairs of the groups, encoded and joined. *)
Lemma buildQueryString_pairs (q : gmap jsstring qvalue) (s : jsstring) :
  buildQueryString (Some q) = Some s →
  ∃ encoded,
    mapM encode_pair (expand (omap (group q) (sort (Object_keys q))))
    = Some encoded
    ∧ s = join (lit "&") (pair_text <$> encoded).
Proof.
  unfold buildQueryString. simpl. rewrite push_keys_spec.
  assert (∀ l, mapM (fun p : jsstring * jsstring => pair_string p.1 p.2) l
               = fmap pair_text <$> mapM encode_pair l) as Hm.
  { intros l. rewrite <- mapM_fmap_out. apply mapM_ext.
    intros [k v]. apply pair_string_encode. }
  rewrite Hm. destruct (mapM encode_pair _) as [encoded|]; [|done].
  simpl. intros [= <-]. by exists encoded.
Qed.

End QueryStringFacts.

Section QueryStringOrder.

Lemma group_key (q : gmap jsstring qvalue) (k : jsstring)
    (g : jsstring * list jsstring) :
  group q k = Some g → g.1 = k.
Proof. unfold group. repeat case_match; naive_solver. Qed.

Lemma groups_keys_subset (q : gmap jsstring qvalue) (keys : list jsstring)
    (k : jsstring) :
  k ∈ (omap (group q) keys).*1 → k ∈ keys.
Proof.
  rewrite list_elem_of_fmap. intros (g & -> & Hg).
  apply list_elem_of_omap in Hg as (k' & Hk' & Hgk).
  by rewrite (group_key _ _ _ Hgk).
Qed.

(** Dropping the keys without a value keeps the keys in order. *)
Lemma groups_keys_sorted (q : gmap jsstring qvalue) (keys : list jsstring) :
  StronglySorted Js.lt keys →
  StronglySorted Js.lt (omap (group q) keys).*1.
Proof.
  induction 1 as [|k keys Hs IH Hall]; [constructor|].
  cbn [omap list_omap]. destruct (group q k) as [g|] eqn:Hg; [|done].
  rewrite fmap_cons. constructor; [done|].
  rewrite (group_key _ _ _ Hg). rewrite Forall_forall in Hall |- *.
  intros k' Hk'. apply Hall. by eapply groups_keys_subset.
Qed.

Lemma sorted_keys_elem (q : gmap jsstring qvalue) (k : jsstring) :
  k ∈ sort (Object_keys q) ↔ is_Some (q !! k).
Proof.
  rewrite sort_permutation. unfold Object_keys.
  rewrite list_elem_of_fmap. split.
  - intros ([k' v] & -> & Hkv). apply elem_of_map_to_list in Hkv. by exists v.
  - intros [v Hv]. exists (k, v). split; [done|].
    by apply elem_of_map_to_list.
Qed.

Lemma sorted_keys_strict (q : gmap jsstring qvalue) :
  StronglySorted Js.lt (sort (Object_keys q)).
Proof.
  apply sorted_nodup_strict; [apply sort_sorted|].
  rewrite sort_permutation. apply NoDup_fst_map_to_list.
Qed.

(** Every key with a value has its group, and no other key has one. *)
Lemma groups_content (q : gmap jsstring qvalue) (k : jsstring) :
  let groups := omap (group q) (sort (Object_keys q)) in
  match q !! k with
  | Some (QStr v) => (k, [v]) ∈ groups
  | Some (QArr vs) => (k, sort vs) ∈ groups
  | _ => k ∉ groups.*1
  end.
Proof.
  intros groups. subst groups.
  destruct (q !! k) as [[| |v|vs]|] eqn:Hk.
  - rewrite list_elem_of_fmap. intros (g & -> & Hg).
    apply list_elem_of_omap in Hg as (k' & _ & Hgk).
    pose proof (group_key _ _ _ Hgk) as <-. unfold group in Hgk.
    repeat case_match; simplify_eq.
  - rewrite list_elem_of_fmap. intros (g & -> & Hg).
    apply list_elem_of_omap in Hg as (k' & _ & Hgk).
    pose proof (group_key _ _ _ Hgk) as <-. unfold group in Hgk.
    repeat case_match; simplify_eq.
  - apply list_elem_of_omap. exists k. split.
    + apply sorted_keys_elem. by rewrite Hk.
    + unfold group. by rewrite Hk.
  - apply list_elem_of_omap. exists k. split.
    + apply sorted_keys_elem. by rewrite Hk.
    + unfold group. by rewrite Hk.
  - rewrite list_elem_of_fmap. intros (g & -> & Hg).
    apply list_elem_of_omap in Hg as (k' & _ & Hgk).
    pose proof (group_key _ _ _ Hgk) as <-. unfold group in Hgk.
    repeat case_match; simplify_eq.
Qed.

End QueryStringOrder.

(** ** What the encoder can produce, and reading the string back *)

Section QueryStringParse.

Lemma hex_digit_plain (d : N) : plain (hex_digit d).
Proof. unfold plain, hex_digit. destruct (N.ltb_spec d 10); lia. Qed.

Lemma pct_plain (b : N) : Forall plain (pct b).
Proof.
  unfold pct. repeat constructor; try apply hex_digit_plain; done.
Qed.

Lemma pct_all_plain (bs : list N) : Forall plain (pct_all bs).
Proof.
  unfold pct_all. induction bs as [|b bs IH]; [constructor|].
  cbn [flat_map]. apply Forall_app. split; [apply pct_plain|done].
Qed.

Lemma uri_unescaped_plain (c : N) : uri_unescaped c = true → plain c.
Proof. intros Hc. split; intros ->; by vm_compute in Hc. Qed.

Lemma encodeURIComponent_plain_by_length (n : nat) :
  ∀ s r, (length s < n)%nat → encodeURIComponent s = Some r → Forall plain r.
Proof.
  induction n as [|n IH]; [lia|]. intros [|c rest] r Hlen; simpl.
  - intros [= <-]. constructor.
  - simpl in Hlen. destruct (uri_unescaped c) eqn:Hc.
    + destruct (encodeURIComponent rest) as [r'|] eqn:Hr; [|done].
      simpl. intros [= <-]. constructor; [by apply uri_unescaped_plain|].
      apply (IH rest); [lia|done].
    + destruct (is_lead c).
      * destruct rest as [|d rest']; [done|]. destruct (is_trail d); [|done].
        destruct (encodeURIComponent rest') as [r'|] eqn:Hr; [|done].
        simpl. intros [= <-]. apply Forall_app. split; [apply pct_all_plain|].
        apply (IH rest'); [simpl in Hlen; lia|done].
      * destruct (is_trail c); [done|].
        destruct (encodeURIComponent rest) as [r'|] eqn:Hr; [|done].
        simpl. intros [= <-]. apply Forall_app. split; [apply pct_all_plain|].
        apply (IH rest); [lia|done].
Qed.

Lemma hex_upper_plain (fuel : nat) (n : N) (acc : jsstring) :
  Forall plain acc → Forall plain (hex_upper fuel n acc).
Proof.
  revert n acc. induction fuel as [|fuel IH]; intros n acc Hacc; [done|].
  simpl. destruct (n <? 16).
  - constructor; [apply hex_digit_plain|done].
  - apply IH. constructor; [apply hex_digit_plain|done].
Qed.

Lemma escape_extra_plain (r : jsstring) :
  Forall plain r → Forall plain (escape_extra r).
Proof.
  unfold escape_extra. induction 1 as [|c r Hc _ IH]; [constructor|].
  simpl. apply Forall_app. split; [|done]. destruct (is_extra c).
  - constructor; [done|]. by apply hex_upper_plain.
  - by constructor.
Qed.

(** An encoded key or value contains neither [&] nor [=]. *)
Lemma encodeRFC3986_plain (s r : jsstring) :
  encodeRFC3986 s = Some r → Forall plain r.
Proof.
  unfold encodeRFC3986.
  destruct (encodeURIComponent s) as [r'|] eqn:Hr; [|done].
  simpl. intros [= <-]. apply escape_extra_plain.
  apply (encodeURIComponent_plain_by_length (S (length s)) s); [lia|done].
Qed.

Lemma split_on_run (sep : N) (a rest cur : jsstring) :
  Forall (fun c => c ≠ sep) a →
  split_on sep (a ++ rest) cur = split_on sep rest (cur ++ a).
Proof.
  intros Ha. revert cur. induction Ha as [|c a Hc _ IH]; intros cur.
  - by rewrite app_nil_r.
  - simpl. apply N.eqb_neq in Hc. rewrite Hc, IH. by rewrite <- app_assoc.
Qed.

Lemma cut_at_run (sep : N) (a rest cur : jsstring) :
  Forall (fun c => c ≠ sep) a →
  cut_at sep (a ++ sep :: rest) cur = (cur ++ a, rest).
Proof.
  intros Ha. revert cur. induction Ha as [|c a Hc _ IH]; intros cur.
  - simpl. by rewrite N.eqb_refl, app_nil_r.
  - simpl. apply N.eqb_neq in Hc. rewrite Hc, IH. by rewrite <- app_assoc.
Qed.

Lemma split_join (pieces : list jsstring) :
  pieces ≠ [] →
  Forall (Forall (fun c => c ≠ 38)) pieces →
  split_on 38 (join (lit "&") pieces) [] = pieces.
Proof.
  intros Hne Hall. induction Hall as [|p pieces Hp Hall IH]; [done|].
  destruct pieces as [|p' pieces].
  - simpl. rewrite <- (app_nil_r p) at 1. by rewrite split_on_run.
  - cbn [join]. rewrite split_on_run by done. simpl.
    f_equal. by apply IH.
Qed.

(** Reading back the joined texts of encoded pairs gives the pairs. *)
Lemma parse_join (encoded : list (jsstring * jsstring)) :
  Forall (fun p => Forall plain p.1 ∧ Forall plain p.2) encoded →
  parse_qs (join (lit "&") (pair_text <$> encoded)) = encoded.
Proof.
  intros Hall. destruct encoded as [|p encoded]; [done|].
  assert (join (lit "&") (pair_text <$> p :: encoded) ≠ []) as Hne.
  { rewrite fmap_cons. unfold pair_text at 1.
    destruct (pair_text <$> encoded); simpl; by destruct (p.1). }
  unfold parse_qs.
  destruct (join (lit "&") (pair_text <$> p :: encoded)) eqn:Hj; [done|].
  rewrite <- Hj. rewrite split_join.
  - clear Hj Hne. induction Hall as [|[k v] rest [Hk Hv] _ IH]; [done|].
    rewrite !fmap_cons. f_equal; [|exact IH]. unfold pair_text. simpl.
    rewrite cut_at_run; [done|].
    eapply Forall_impl; [exact Hk|]. by intros c [_ Hc].
  - done.
  - clear Hj Hne. induction Hall as [|[k v] rest [Hk Hv] _ IH]; [constructor|].
    rewrite fmap_cons. constructor; [|exact IH]. unfold pair_text. simpl.
    apply Forall_app. split.
    + eapply Forall_impl; [exact Hk|]. by intros c [Hc _].
    + constructor; [done|]. eapply Forall_impl; [exact Hv|].
      by intros c [Hc _].
Qed.

Lemma encode_pair_plain (p e : jsstring * jsstring) :
  encode_pair p = Some e → Forall plain e.1 ∧ Forall plain e.2.
Proof.
  unfold encode_pair.
  destruct (encodeRFC3986 p.1) as [ek|] eqn:Hk; [|done].
  destruct (encodeRFC3986 p.2) as [ev|] eqn:Hv; [|done].
  simpl. intros [= <-]. simpl. split; by eapply encodeRFC3986_plain.
Qed.

End QueryStringParse.

(** C1 (as the code has it): the string [buildQueryString] returns is the
    join with [&] of the pairs [key=value] of its groups, one group for
    each key whose value is a string or an array; the groups come in
    strictly ascending order of their keys and the values of an array in
    ascending order, both compared before they are percent-encoded; every
    key and value is then encoded, and these encoded pairs are what the
    string lists. *)
Theorem buildQueryString_sorted (q : gmap jsstring qvalue) (s : jsstring) :
  buildQueryString (Some q) = Some s →
  ∃ groups encoded,
    StronglySorted Js.lt groups.*1
    ∧ (∀ k, match q !! k with
            | Some (QStr v) => (k, [v]) ∈ groups
            | Some (QArr vs) =>
                ∃ sorted, (k, sorted) ∈ groups
                          ∧ StronglySorted Js.le sorted ∧ sorted ≡ₚ vs
            | _ => k ∉ groups.*1
            end)
    ∧ mapM encode_pair (expand groups) = Some encoded
    ∧ parse_qs s = encoded
    ∧ s = join (lit "&") (pair_text <$> encoded).
Proof.
  intros Hs. apply buildQueryString_pairs in Hs as (encoded & Henc & ->).
  exists (omap (group q) (sort (Object_keys q))), encoded.
  split; [apply groups_keys_sorted, sorted_keys_strict|].
  split; [|split; [done|split; [|done]]].
  - intros k. pose proof (groups_content q k) as Hk. simpl in Hk.
    destruct (q !! k) as [[| |v|vs]|]; try done.
    exists (sort vs). split; [done|].
    split; [apply sort_sorted|apply sort_permutation].
  - apply parse_join. apply mapM_Some_1 in Henc.
    induction Henc as [|p e l l' Hpe _ IH]; [constructor|].
    constructor; [by eapply encode_pair_plain|done].
Qed.

Lemma buildQueryString_sorted_witness :
  ∃ groups encoded,
    StronglySorted Js.lt groups.*1
    ∧ (∀ k, match q_demo !! k with
            | Some (QStr v) => (k, [v]) ∈ groups
            | Some (QArr vs) =>
                ∃ sorted, (k, sorted) ∈ groups
                          ∧ StronglySorted Js.le sorted ∧ sorted ≡ₚ vs
            | _ => k ∉ groups.*1
            end)
    ∧ mapM encode_pair (expand groups) = Some encoded
    ∧ parse_qs (lit "k=a&k=%7B&language-code=en-US&media-encoding=pcm&sample-rate=16000")
      = encoded
    ∧ lit "k=a&k=%7B&language-code=en-US&media-encoding=pcm&sample-rate=16000"
      = join (lit "&") (pair_text <$> encoded).
Proof.
  apply (buildQueryString_sorted q_demo). vm_compute. reflexivity.
Defined.

(** C1, counterexample: for the values "{" and "a" of one key the string
    is [k=a&k=%7B], and for the keys "{" and "a" it is [a=2&%7B=1]; in both
    the encoded texts descend, [%] coming before every letter. *)
Lemma encoded_order_fails :
  (∃ s, buildQueryString (Some query_brace_values) = Some s
        ∧ ¬ lists_ascending s)
  ∧ (∃ s, buildQueryString (Some query_brace_keys) = Some s
          ∧ ¬ lists_ascending s).
Proof.
  split.
  - exists (lit "k=a&k=%7B"). split; [by vm_compute|].
    unfold lists_ascending. apply (bool_decide_unpack (¬ _)). by vm_compute.
  - exists (lit "a=2&%7B=1"). split; [by vm_compute|].
    unfold lists_ascending. apply (bool_decide_unpack (¬ _)). by vm_compute.
Qed.

Example extract_demo :
  extractTranscriptParts payload_demo
  = Some [ {| text := VStr (lit "hello"); isPartial := true;
              startTime := of_Z 1; endTime := VNull |};
           {| text := VStr (lit "bye"); isPartial := false;
              startTime := of_Z 1; endTime := VNull |} ].
Proof. vm_compute. reflexivity. Qed.

Example extract_null_result :
  extractTranscriptParts
    (VObj [(lit "Transcript", VObj [(lit "Results", VArr [VNull])])]) = None.
Proof. vm_compute. reflexivity. Qed.

Example from_base64_AAAA : from_base64 (lit "AAAA") = [x00; x00; x00].
Proof. vm_compute. reflexivity. Qed.

Example base64_demo :
  to_base64 (bytes_of "hello") = lit "aGVsbG8=" ∧
  from_base64 (lit "aGVsbG8=") = bytes_of "hello".
Proof. vm_compute. split; reflexivity. Qed.

Example utf8_demo :
  toString_utf8 (bytes_of "invalid sample rate") = lit "invalid sample rate" ∧
  toString_utf8 [xe2; x82; xac; xff; xf0; x9f; x98; x80; xc3]
  = [8364; 65533; 55357; 56832; 65533].
Proof. vm_compute. split; reflexivity. Qed.

Example crc32_check : crc32 (bytes_of "123456789") = 3421780262.
Proof. vm_compute. reflexivity. Qed.

(** ** The frame codec: decoding inverts encoding *)

Section CodecFacts.

Context `{Format}.










End CodecFacts.



(** ** Base64: Node's decoder inverts the standard encoder *)

Section Base64.

Lemma byte_of_to_N (x : byte) : byte_of_N (Byte.to_N x) = x.
Proof.
  unfold byte_of_N. pose proof (Byte.to_N_bounded x).
  rewrite N.mod_small by lia. by rewrite Byte.of_to_N.
Qed.

Lemma below_64_cases (P : N → Prop) :
  Forall P (N.of_nat <$> seq 0 64) → ∀ v, v < 64 → P v.
Proof.
  intros HP v Hv. rewrite Forall_forall in HP. apply HP.
  apply list_elem_of_fmap. exists (N.to_nat v). split; [lia|].
  apply elem_of_seq. lia.
Qed.

Lemma unbase64_char (v : N) :
  v < 64 → unbase64 (base64_char v) = Some v ∧ base64_char v ≠ 61.
Proof.
  revert v. apply below_64_cases.
  repeat (constructor; [by vm_compute|]). constructor.
Qed.

Lemma sextets_char (v : N) (s : jsstring) :
  v < 64 → sextets (base64_char v :: s) = v :: sextets s.
Proof.
  intros Hv. destruct (unbase64_char v Hv) as [Hu Hne]. simpl.
  rewrite Hu. apply N.eqb_neq in Hne. by rewrite Hne.
Qed.

Lemma sextets_padding (s : jsstring) : sextets (61 :: s) = [].
Proof. done. Qed.

(** The three bytes of a full group come back. *)
Lemma group_bytes (a b c : N) :
  a ≤ 255 → b ≤ 255 → c ≤ 255 →
  (a / 4) * 4 + ((a mod 4) * 16 + b / 16) / 16 = a
  ∧ (((a mod 4) * 16 + b / 16) mod 16) * 16 + ((b mod 16) * 4 + c / 64) / 4 = b
  ∧ (((b mod 16) * 4 + c / 64) mod 4) * 64 + c mod 64 = c.
Proof. intros. repeat split; zify; Z.to_euclidean_division_equations; lia. Qed.

Lemma group_sextets (a b c : N) :
  a ≤ 255 → b ≤ 255 → c ≤ 255 →
  a / 4 < 64 ∧ (a mod 4) * 16 + b / 16 < 64
  ∧ (b mod 16) * 4 + c / 64 < 64 ∧ c mod 64 < 64.
Proof. intros. repeat split; zify; Z.to_euclidean_division_equations; lia. Qed.

Lemma from_to_base64_by_length (n : nat) :
  ∀ bs : list byte, (length bs < n)%nat → from_base64 (to_base64 bs) = bs.
Proof.
  unfold from_base64. induction n as [|n IH]; [lia|].
  intros [|x [|y [|z bs]]] Hlen.
  - done.
  - pose proof (Byte.to_N_bounded x) as Hx.
    destruct (group_sextets (Byte.to_N x) 0 0) as (H1 & H2 & _); [lia..|].
    destruct (group_bytes (Byte.to_N x) 0 0) as (E1 & _); [lia..|].
    cbn [to_base64]. rewrite N.add_0_r in H2, E1.
    rewrite !sextets_char, sextets_padding by done.
    cbn [bytes_of_sextets]. by rewrite E1, byte_of_to_N.
  - pose proof (Byte.to_N_bounded x) as Hx.
    pose proof (Byte.to_N_bounded y) as Hy.
    destruct (group_sextets (Byte.to_N x) (Byte.to_N y) 0)
      as (H1 & H2 & H3 & _); [lia..|].
    destruct (group_bytes (Byte.to_N x) (Byte.to_N y) 0)
      as (E1 & E2 & _); [lia..|].
    cbn [to_base64]. rewrite N.add_0_r in H3, E2.
    rewrite !sextets_char, sextets_padding by done.
    cbn [bytes_of_sextets]. by rewrite E1, E2, !byte_of_to_N.
  - pose proof (Byte.to_N_bounded x) as Hx.
    pose proof (Byte.to_N_bounded y) as Hy.
    pose proof (Byte.to_N_bounded z) as Hz.
    destruct (group_sextets (Byte.to_N x) (Byte.to_N y) (Byte.to_N z))
      as (H1 & H2 & H3 & H4); [lia..|].
    destruct (group_bytes (Byte.to_N x) (Byte.to_N y) (Byte.to_N z))
      as (E1 & E2 & E3); [lia..|].
    cbn [to_base64]. rewrite !sextets_char by done.
    cbn [bytes_of_sextets]. rewrite E1, E2, E3, !byte_of_to_N.
    rewrite IH; [done|]. simpl in Hlen. lia.
Qed.

(** Decoding the base64 text of a byte sequence gives the bytes back. *)
Lemma from_to_base64 (bs : list byte) : from_base64 (to_base64 bs) = bs.
Proof. apply (from_to_base64_by_length (S (length bs))). lia. Qed.

(** The text of a non-empty byte sequence is a non-empty, truthy string. *)
Lemma to_base64_truthy (bs : list byte) :
  bs ≠ [] → truthy (VStr (to_base64 bs)) = true.
Proof. destruct bs as [|x [|y [|z bs]]]; done. Qed.

End Base64.

Example wire_round_trip_demo :
  (data ← @marshall wire_runtime exception_message;
   @unmarshall wire_runtime data) = Some exception_message.
Proof. vm_compute. reflexivity. Qed.

(** ** The session handlers *)

Section SessionFacts.

Context `{Runtime}.

Lemma session_eta (s : Session) :
  {| ws := ws s; started := started s; sockets := sockets s |} = s.
Proof. by destruct s. Qed.

Lemma open_upstream_ws (s : Session) (c : nat) :
  open_upstream s = Some c → ws s = Some c ∧ sockets s !! c = Some OPEN.
Proof.
  unfold open_upstream. destruct (ws s) as [c'|]; simpl; [|done].
  case_decide; [|done]. by intros [= ->].
Qed.

Lemma open_upstream_idle (s : Session) :
  ws s = None → open_upstream s = None.
Proof. unfold open_upstream. by intros ->. Qed.

(** A start while [started] is set returns at line 146. *)
Lemma on_start_started (msg : value) (s : Session) :
  started s = true → step (ClientStart msg) s = (s, []).
Proof. simpl. unfold on_start. by intros ->. Qed.

(** Only a resetting event clears [started]. *)
Lemma step_keeps_started (e : Event) (s : Session) :
  resets e = false → started s = true → started (step e s).1 = true.
Proof.
  intros He Hs. destruct e; try done.
  - by rewrite on_start_started.
  - simpl. unfold on_audio. repeat case_match; done.
  - simpl. unfold on_disconnect, close_if_open. by case_match.
Qed.

(** A start is the only event that asks for a signature. *)
Lemma emits_no_presign {A} (ev : jsstring) (f : A → value) (l : list A) :
  filter is_presign ((fun p => Emit ev (f p)) <$> l) = [].
Proof.
  induction l as [|x l IH]; [done|].
  rewrite fmap_cons, filter_cons_False; [done|]. simpl. tauto.
Qed.

Lemma step_started_no_presign (e : Event) (s : Session) :
  started s = true → filter is_presign (step e s).2 = [].
Proof.
  intros Hs. destruct e; [by rewrite on_start_started|simpl..].
  - unfold on_audio. repeat case_match; done.
  - unfold on_stop. destruct (close_if_open _ _ s) as [s' out] eqn:E.
    unfold close_if_open in E. case_match; by simplify_eq.
  - unfold on_disconnect, close_if_open. by case_match.
  - done.
  - done.
  - done.
  - unfold on_message. repeat case_match; try done.
    apply emits_no_presign.
  - done.
  - done.
Qed.

Lemma run_keeps_started (es : list Event) (s : Session) :
  Forall (fun e => resets e = false) es → started s = true →
  started (run es s).1 = true ∧ filter is_presign (run es s).2 = [].
Proof.
  intros Hes. revert s. induction Hes as [|e es He _ IH]; intros s Hs.
  - done.
  - simpl. pose proof (step_keeps_started e s He Hs) as Hk.
    pose proof (step_started_no_presign e s Hs) as Hp.
    destruct (step e s) as [s1 out1]. simpl in *.
    destruct (IH s1 Hk) as [Hk' Hp'].
    destruct (run es s1) as [s2 out2]. simpl in *.
    split; [done|]. by rewrite filter_app, Hp, Hp'.
Qed.

End SessionFacts.

(** C4: [start({})] announces language code "en-US" and sample rate 16000
    and asks for one signature with them; from then on, whatever happens
    short of a stop, an upstream close or error, or a failed start, the
    session stays started, no further signature is asked for, and one more
    [start] changes nothing and emits nothing. *)
Theorem start_defaults_then_noop `{Runtime}
    (s : Session) (es : list Event) (msg : value) :
  started s = false →
  Forall (fun e => resets e = false) es →
  let '(s1, out1) := step (ClientStart (VObj [])) s in
  let '(s2, out2) := run es s1 in
  out1 = [status [(lit "state", VStr (lit "starting"));
                  (lit "languageCode", VStr (lit "en-US"));
                  (lit "sampleRate", of_Z 16000)];
          Presign (VStr (lit "en-US")) (of_Z 16000) (VStr (lit "pcm"))]
  ∧ started s1 = true
  ∧ started s2 = true
  ∧ filter is_presign out2 = []
  ∧ step (ClientStart msg) s2 = (s2, []).
Proof.
  intros Hs Hes.
  assert (step (ClientStart (VObj [])) s
          = ({| ws := ws s; started := true; sockets := sockets s |},
             [status [(lit "state", VStr (lit "starting"));
                      (lit "languageCode", VStr (lit "en-US"));
                      (lit "sampleRate", of_Z 16000)];
              Presign (VStr (lit "en-US")) (of_Z 16000) (VStr (lit "pcm"))]))
    as ->.
  { simpl. unfold on_start. rewrite Hs. reflexivity. }
  pose proof (run_keeps_started es
                {| ws := ws s; started := true; sockets := sockets s |}
                Hes eq_refl) as [Hk Hp].
  destruct (run es _) as [s2 out2]. simpl in Hk, Hp.
  repeat split; try done. by apply on_start_started.
Qed.

Lemma start_defaults_then_noop_witness :
  let '(s1, out1) := @step wire_runtime (ClientStart (VObj [])) initial in
  let '(s2, out2) :=
    @run wire_runtime [Presigned (lit "wss://h"); WsOpened 0;
                       ClientAudio (VObj [(lit "chunkBase64", VStr (lit "AAAA"))])]
         s1 in
  out1 = [status [(lit "state", VStr (lit "starting"));
                  (lit "languageCode", VStr (lit "en-US"));
                  (lit "sampleRate", of_Z 16000)];
          Presign (VStr (lit "en-US")) (of_Z 16000) (VStr (lit "pcm"))]
  ∧ started s1 = true
  ∧ started s2 = true
  ∧ filter is_presign out2 = []
  ∧ @step wire_runtime (ClientStart VUndefined) s2 = (s2, []).
Proof.
  apply (@start_defaults_then_noop wire_runtime initial
           [Presigned (lit "wss://h"); WsOpened 0;
            ClientAudio (VObj [(lit "chunkBase64", VStr (lit "AAAA"))])]
           VUndefined).
  - reflexivity.
  - repeat constructor.
Defined.

(** C7: [stop] while an open upstream connection is held calls
    [close(1000, "client stop")] on it, emits status "stopping", and in the
    same step clears [started] and drops the reference; the connection is
    then only closing, its close handshake not yet complete. *)
Theorem stop_while_streaming `{Runtime} (s : Session) (c : nat) :
  ws s = Some c →
  sockets s !! c = Some OPEN →
  step ClientStop s
  = ({| ws := None; started := false;
        sockets := <[c := CLOSING]> (sockets s) |},
     [WsClose c 1000 (lit "client stop");
      status [(lit "state", VStr (lit "stopping"))]])
  ∧ <[c := CLOSING]> (sockets s) !! c = Some CLOSING.
Proof.
  intros Hws Hopen. split.
  - simpl. unfold on_stop, close_if_open, open_upstream.
    rewrite Hws. simpl. rewrite decide_True by done. reflexivity.
  - apply list_lookup_insert_eq. by eapply lookup_lt_Some.
Qed.

Lemma stop_while_streaming_witness :
  @step wire_runtime ClientStop streaming
  = ({| ws := None; started := false; sockets := [CLOSING] |},
     [WsClose 0 1000 (lit "client stop");
      status [(lit "state", VStr (lit "stopping"))]])
  ∧ [CLOSING] !! O = Some CLOSING.
Proof.
  apply (@stop_while_streaming wire_runtime streaming O); reflexivity.
Defined.

(** C10: [stop] on an idle session (no connection referenced, [started]
    false) is not silent: it emits one status event with state "stopping",
    calls no [close], and leaves the session as it was. *)
Theorem stop_when_idle `{Runtime} (s : Session) :
  ws s = None →
  started s = false →
  step ClientStop s = (s, [status [(lit "state", VStr (lit "stopping"))]]).
Proof.
  intros Hws Hst. simpl. unfold on_stop, close_if_open.
  rewrite open_upstream_idle by done.
  destruct s as [w st so]. simpl in *. by subst.
Qed.

Lemma stop_when_idle_witness :
  @step wire_runtime ClientStop initial
  = (initial, [status [(lit "state", VStr (lit "stopping"))]]).
Proof. apply (@stop_when_idle wire_runtime initial); reflexivity. Defined.



(** C8: an inbound frame whose [:message-type] is "exception", whatever its
    event type, makes the session emit exactly one "error" event and
    nothing else; the message of that event contains the decoded payload
    text and, when the frame has an [:event-type], that event type; the
    session is left as it was, so it stays open. *)
Theorem exception_frame_forwarded `{Runtime}
    (s : Session) (c : nat) (data : list byte) (m : Message) :
  unmarshall data = Some m →
  header (lit ":message-type") (headers m) = Some (lit "exception") →
  ∃ message,
    step (WsMessage c data) s = (s, [error_event message])
    ∧ includes message (toString_utf8 (body m))
    ∧ ∀ eventType,
        header (lit ":event-type") (headers m) = Some eventType →
        includes message eventType.
Proof.
  intros Hm Htype. simpl. unfold on_message. rewrite Hm, Htype.
  rewrite decide_False by (intros [[=] _]).
  rewrite decide_True by done.
  set (shown := match header (lit ":event-type") (headers m) with
                | Some ((_ :: _) as t) => t
                | _ => lit "Unknown"
                end).
  exists (lit "Transcribe exception: " ++ shown ++ lit " "
          ++ toString_utf8 (body m)).
  split; [reflexivity|]. split.
  - exists (lit "Transcribe exception: " ++ shown ++ lit " "), [].
    by rewrite app_nil_r, <- !app_assoc.
  - intros eventType HeventType. subst shown. rewrite HeventType.
    destruct eventType as [|u t].
    + exists (lit "Transcribe exception: " ++ lit "Unknown" ++ lit " "
              ++ toString_utf8 (body m)), [].
      by rewrite app_nil_r.
    + exists (lit "Transcribe exception: "),
             (lit " " ++ toString_utf8 (body m)).
      reflexivity.
Qed.

Lemma exception_frame_forwarded_witness :
  ∃ message,
    @step wire_runtime (WsMessage 0 exception_frame) streaming
    = (streaming, [error_event message])
    ∧ includes message (lit "invalid sample rate")
    ∧ includes message (lit "BadRequestException").
Proof.
  destruct (@exception_frame_forwarded wire_runtime streaming O
              exception_frame exception_message)
    as (message & Hstep & Hbody & Hevent).
  - vm_compute. reflexivity.
  - reflexivity.
  - exists message. split; [exact Hstep|]. split; [exact Hbody|].
    apply Hevent. reflexivity.
Defined.

(** C6 (as the code has it): a stop, an upstream close, an upstream error
    and a failed start each clear [started] and drop the connection
    reference in one step, whatever the state; a start sets [started] and
    leaves the reference alone, the connection being stored only when the
    signed URL has arrived, as a new connection distinct from every earlier
    one; a disconnect asks the open connection, if any, to close with code
    1001; audio, upstream open and upstream messages change neither
    field. *)
Theorem session_fields_by_transition `{Runtime} (e : Event) (s : Session) :
  let s' := (step e s).1 in
  match e with
  | ClientStop | StartFailed _ | WsClosed _ _ _ | WsError _ _ =>
      started s' = false ∧ ws s' = None
  | ClientStart _ => started s' = true ∧ ws s' = ws s
  | Presigned url =>
      started s' = started s
      ∧ ws s' = Some (length (sockets s))
      ∧ sockets s !! length (sockets s) = None
      ∧ sockets s' !! length (sockets s) = Some CONNECTING
      ∧ (step e s).2 = [WsNew (length (sockets s)) url]
  | ClientDisconnect =>
      (step e s).2 =
        match open_upstream s with
        | Some c => [WsClose c 1001 (lit "client disconnect")]
        | None => []
        end
  | ClientAudio _ | WsOpened _ | WsMessage _ _ =>
      started s' = started s ∧ ws s' = ws s
  end.
Proof.
  destruct e; simpl.
  - unfold on_start. destruct (started s) eqn:Hs; [done|].
    repeat case_match; done.
  - unfold on_audio. repeat case_match; done.
  - unfold on_stop. by destruct (close_if_open _ _ s).
  - unfold on_disconnect, close_if_open. by case_match.
  - repeat split.
    + apply lookup_ge_None. lia.
    + by rewrite lookup_app_r, Nat.sub_diag.
  - done.
  - done.
  - done.
  - done.
  - done.
Qed.

(** C6, counterexample: the rule of the specification fails on an accepted
    start, which sets [started] while no connection is referenced yet, and
    on a disconnect, which leaves a streaming session started and holding
    its connection. *)
Lemma transition_rule_fails :
  ¬ @transition_rule wire_runtime (ClientStart (VObj [])) initial
  ∧ ¬ @transition_rule wire_runtime ClientDisconnect streaming.
Proof.
  split.
  - intros [Hc _]. vm_compute in Hc. discriminate.
  - intros [_ He]. destruct (He eq_refl) as [Hs _]. vm_compute in Hs.
    discriminate.
Qed.

(** A non-empty string in [chunkBase64] is decoded and framed; what leaves
    is the marshalled frame, or "Bad audio chunk" if the marshaller
    throws. *)
Lemma audio_string_framed `{Runtime}
    (s : Session) (c : nat) (msg : value) (chunk : jsstring) :
  ws s = Some c →
  sockets s !! c = Some OPEN →
  get (default_arg msg) (lit "chunkBase64") = Some (VStr chunk) →
  chunk ≠ [] →
  step (ClientAudio msg) s
  = (s, match marshall {| headers := audio_headers;
                          body := from_base64 chunk |} with
        | Some payload => [WsSend c payload]
        | None => [error_event (lit "Bad audio chunk")]
        end).
Proof.
  intros Hws Hopen Hget Hne. simpl. unfold on_audio, open_upstream.
  rewrite Hws. simpl. rewrite decide_True by done. rewrite Hget.
  destruct chunk as [|u chunk]; [done|]. simpl. by case_match.
Qed.

(** C5: an audio message whose [chunkBase64] is the base64 text of a
    non-empty byte sequence, received while an open upstream connection is
    held, sends exactly one frame upstream and does nothing else: the
    frame the marshaller makes of the three headers
    [:message-type=event], [:event-type=AudioEvent],
    [:content-type=application/octet-stream] and of those bytes as body.
    For the chunk "AAAA" the body is three zero bytes. *)
Theorem audio_frame_sent `{Runtime}
    (s : Session) (c : nat) (msg : value) (bs payload : list byte) :
  ws s = Some c →
  sockets s !! c = Some OPEN →
  bs ≠ [] →
  get (default_arg msg) (lit "chunkBase64") = Some (VStr (to_base64 bs)) →
  marshall {| headers := [(lit ":message-type", lit "event");
                          (lit ":event-type", lit "AudioEvent");
                          (lit ":content-type",
                           lit "application/octet-stream")];
              body := bs |} = Some payload →
  step (ClientAudio msg) s = (s, [WsSend c payload])
  ∧ from_base64 (lit "AAAA") = [x00; x00; x00].
Proof.
  intros Hws Hopen Hne Hget Hm. split; [|reflexivity].
  rewrite (audio_string_framed s c msg (to_base64 bs)); try done.
  - rewrite from_to_base64. unfold audio_headers. by rewrite Hm.
  - pose proof (to_base64_truthy bs Hne) as Ht.
    by destruct (to_base64 bs).
Qed.

Lemma audio_frame_sent_witness :
  @step wire_runtime
     (ClientAudio (VObj [(lit "chunkBase64", VStr (lit "AAAA"))])) streaming
  = (streaming, [WsSend 0 silence_frame])
  ∧ @unmarshall wire_runtime silence_frame
    = Some {| headers := [(lit ":message-type", lit "event");
                          (lit ":event-type", lit "AudioEvent");
                          (lit ":content-type",
                           lit "application/octet-stream")];
              body := [x00; x00; x00] |}.
Proof.
  split.
  - apply (@audio_frame_sent wire_runtime streaming O
             (VObj [(lit "chunkBase64", VStr (lit "AAAA"))])
             [x00; x00; x00] silence_frame); try reflexivity.
    discriminate.
  - vm_compute. reflexivity.
Defined.

(** ** Transcript extraction *)

Section Extract.

Lemma get_nullish (v : value) (k : jsstring) :
  nullish v = true → get v k = None.
Proof. by destruct v. Qed.

Lemma get_not_nullish (v : value) (k : jsstring) :
  nullish v = false → get v k = Some (get_opt v k).
Proof.
  unfold get_opt. destruct v; try done; simpl; repeat case_match; done.
Qed.

Lemma truthy_not_nullish (v : value) : truthy v = true → nullish v = false.
Proof. by destruct v. Qed.

Lemma get_opt_falsy (v : value) (k : jsstring) :
  nullish v = true → get_opt v k = VUndefined.
Proof. by destruct v. Qed.

(** The first alternative the loop takes has the text the specification's
    reading gives. *)
Lemma first_alternative_text (r : value) :
  nullish r = false →
  ∃ alt, first_alternative r = Some alt
         ∧ alternative_text alt = text_of_result r.
Proof.
  intros Hr. unfold first_alternative, text_of_result, alternative_text.
  rewrite (get_not_nullish r) by done. simpl.
  destruct (truthy (get_opt r (lit "Alternatives"))) eqn:Ha.
  - rewrite (get_not_nullish (get_opt r (lit "Alternatives")))
      by by apply truthy_not_nullish.
    simpl. eexists. split; [reflexivity|].
    destruct (truthy (get_opt (get_opt r _) (lit "0"))) eqn:H0; [done|].
    by destruct (get_opt (get_opt r _) (lit "0")) as [| |[]|n|[]| |].
  - eexists. split; [reflexivity|].
    by destruct (get_opt r (lit "Alternatives")) as [| |[]|n|[|u t]| |] eqn:E.
Qed.

Lemma segment_of_not_nullish (r : value) :
  nullish r = false →
  segment_of r (text_of_result r) = Some (segment_of_result r).
Proof.
  intros Hr. unfold segment_of. by rewrite !(get_not_nullish r) by done.
Qed.

Lemma for_results_all (results : list value) (out : list TranscriptSegment) :
  Forall (fun r => nullish r = false) results →
  for_results results out = Some (out ++ segments_of_results results).
Proof.
  intros Hall. revert out.
  induction Hall as [|r results Hr _ IH]; intros out.
  - simpl. by rewrite app_nil_r.
  - destruct (first_alternative_text r Hr) as (alt & Ha & Ht).
    cbn [for_results]. rewrite Ha. simpl. rewrite Ht.
    unfold segments_of_results.
    destruct (truthy (text_of_result r)) eqn:E; simpl.
    + rewrite filter_cons_True by (unfold has_text; by rewrite E).
      rewrite segment_of_not_nullish by done. simpl.
      rewrite IH. unfold segments_of_results. by rewrite <- app_assoc.
    + rewrite filter_cons_False by (unfold has_text; rewrite E; by intros []).
      apply IH.
Qed.

Lemma for_results_raises (results : list value) (out : list TranscriptSegment) :
  ¬ Forall (fun r => nullish r = false) results →
  for_results results out = None.
Proof.
  revert out. induction results as [|r results IH]; intros out Hex.
  - by destruct Hex.
  - destruct (nullish r) eqn:Hr.
    + cbn [for_results]. unfold first_alternative.
      by rewrite get_nullish.
    + destruct (first_alternative_text r Hr) as (alt & Ha & Ht).
      cbn [for_results]. rewrite Ha. simpl. rewrite Ht.
      assert (¬ Forall (fun r => nullish r = false) results) as Hrest.
      { intros Hall. apply Hex. by constructor. }
      destruct (truthy (text_of_result r)); simpl.
      * rewrite segment_of_not_nullish by done. simpl. by apply IH.
      * by apply IH.
Qed.

End Extract.

(** C2 (as the code has it): for every JSON payload, [extract] walks the
    value found at [Transcript.Results].  When that is an array without
    [null] elements (or a string) it returns one segment for each
    result whose first alternative has non-empty text, M segments in the
    original order, [isPartial] defaulting to false and [startTime],
    [endTime] to null; when the results list is missing or falsy it returns
    the empty sequence; and it raises exactly when the results value is
    truthy and not iterable or when a result is [null] or [undefined]. *)
Theorem extract_segments (json : value) :
  extractTranscriptParts json
  = match iterate (results_of json) with
    | Some results =>
        if decide (Forall (fun r => nullish r = false) results)
        then Some (segments_of_results results)
        else None
    | None => None
    end
  ∧ (truthy (get_opt (get_opt json (lit "Transcript")) (lit "Results"))
     = false → extractTranscriptParts json = Some [])
  ∧ ∀ segments,
      extractTranscriptParts json = Some segments →
      ∃ results,
        iterate (results_of json) = Some results
        ∧ segments = segment_of_result <$> filter has_text results
        ∧ length segments = length (filter has_text results).
Proof.
  assert (extractTranscriptParts json
          = match iterate (results_of json) with
            | Some results =>
                if decide (Forall (fun r => nullish r = false) results)
                then Some (segments_of_results results)
                else None
            | None => None
            end) as Heq.
  { unfold extractTranscriptParts.
    destruct (iterate (results_of json)) as [results|]; [|done]. simpl.
    case_decide.
    - by rewrite for_results_all.
    - by apply for_results_raises. }
  split; [exact Heq|]. split.
  - intros Hmiss. rewrite Heq. unfold results_of, or_else. by rewrite Hmiss.
  - intros segments Hs. rewrite Heq in Hs.
    destruct (iterate (results_of json)) as [results|]; [|done].
    case_decide; [|done]. simplify_eq. exists results.
    repeat split. unfold segments_of_results. by rewrite length_fmap.
Qed.

Lemma extract_segments_witness :
  extractTranscriptParts (VObj [(lit "Transcript", VNull)]) = Some []
  ∧ ∃ results,
      iterate (results_of payload_demo) = Some results
      ∧ length (filter has_text results) = 2%nat.
Proof.
  split.
  - apply (extract_segments (VObj [(lit "Transcript", VNull)])).
    reflexivity.
  - destruct (proj2 (proj2 (extract_segments payload_demo)) _ extract_demo)
      as (results & Hit & _ & Hlen).
    exists results. split; [exact Hit|]. symmetry. exact Hlen.
Defined.

(** C2, counterexample: [extract] raises a [TypeError] on a results list
    that holds [null], and on a number in the place of the results list. *)
Lemma extract_raises :
  ¬ never_raises payload_null_result ∧ ¬ never_raises payload_number_results.
Proof. split; intros [segments Hs]; vm_compute in Hs; discriminate. Qed.

Example formatSignedUrl_demo :
  formatSignedUrl (transcribe_parts (lit "us-east-1") q_demo)
  = Some (lit "wss://transcribestreaming.us-east-1.amazonaws.com:8443/stream-transcription-websocket?k=a&k=%7B&language-code=en-US&media-encoding=pcm&sample-rate=16000").
Proof. vm_compute. reflexivity. Qed.

Example String_of_N_demo :
  String_of_N 0 = lit "0" ∧ String_of_N 8443 = lit "8443"
  ∧ String_of_N 65535 = lit "65535".
Proof. vm_compute. repeat split. Qed.

(** ** More about [encodeRFC3986] *)

Section EncodeFacts.

Lemma uri_unescaped_small (c : N) : uri_unescaped c = true → c < 127.
Proof.
  unfold uri_unescaped, is_unreserved, is_extra, is_alpha, is_digit.
  intros Hc. destruct (N.ltb_spec c 127) as [|Hge]; [done|].
  repeat match goal with
         | H : context [?a <=? ?b] |- _ => destruct (N.leb_spec a b); try lia
         | H : context [?a =? ?b] |- _ => destruct (N.eqb_spec a b); try lia
         end; done.
Qed.

Lemma uri_unescaped_not_surrogate (c : N) :
  uri_unescaped c = true → is_lead c = false ∧ is_trail c = false.
Proof.
  intros Hc. apply uri_unescaped_small in Hc. unfold is_lead, is_trail.
  split; apply andb_false_intro1; apply N.leb_gt; lia.
Qed.

Lemma is_extra_cases (c : N) :
  is_extra c = true → c = 33 ∨ c = 39 ∨ c = 40 ∨ c = 41 ∨ c = 42.
Proof.
  unfold is_extra. rewrite !orb_true_iff, !N.eqb_eq. tauto.
Qed.

Lemma is_extra_not_unreserved (c : N) :
  is_extra c = true → is_unreserved c = false.
Proof.
  intros Hc. by destruct (is_extra_cases c Hc) as [->|[->|[->|[->| ->]]]].
Qed.

Lemma hex_digit_unreserved (d : N) : d < 16 → is_unreserved (hex_digit d) = true.
Proof.
  intros Hd. assert (d < 64) as Hd' by lia. revert d Hd' Hd.
  apply (below_64_cases (fun d => d < 16 → is_unreserved (hex_digit d) = true)).
  repeat (constructor; [intros Hd; first [by vm_compute | (exfalso; vm_compute in Hd; discriminate)]|]).
  constructor.
Qed.

Lemma pct_alphabet (b : N) : b < 256 → Forall unreserved_or_pct (pct b).
Proof.
  intros Hb. unfold pct. constructor; [by right|].
  constructor; [left; apply hex_digit_unreserved|].
  - apply N.Div0.div_lt_upper_bound. lia.
  - constructor; [|constructor]. left. apply hex_digit_unreserved.
    apply N.mod_lt. lia.
Qed.

Lemma utf8_bytes (cp : N) : cp < 1114112 → Forall (fun b => b < 256) (utf8 cp).
Proof.
  intros Hcp. unfold utf8.
  destruct (N.ltb_spec cp 128); [repeat constructor; lia|].
  destruct (N.ltb_spec cp 2048).
  { repeat constructor; zify; Z.to_euclidean_division_equations; lia. }
  destruct (N.ltb_spec cp 65536).
  { repeat constructor; zify; Z.to_euclidean_division_equations; lia. }
  repeat constructor; zify; Z.to_euclidean_division_equations; lia.
Qed.

Lemma pct_all_alphabet (bs : list N) :
  Forall (fun b => b < 256) bs → Forall unreserved_or_pct (pct_all bs).
Proof.
  unfold pct_all. induction 1 as [|b bs Hb _ IH]; [constructor|].
  cbn [flat_map]. apply Forall_app. split; [by apply pct_alphabet|done].
Qed.

(** The cases of the encoder, as an induction principle on strings. *)
Lemma encoder_ind (P : jsstring → Prop) :
  P [] →
  (∀ c rest, uri_unescaped c = true → P rest → P (c :: rest)) →
  (∀ c d rest, uri_unescaped c = false → is_lead c = true →
               is_trail d = true → P rest → P (c :: d :: rest)) →
  (∀ c rest, is_lead c = true →
             match rest with d :: _ => is_trail d = false | [] => True end →
             P (c :: rest)) →
  (∀ c rest, is_lead c = false → is_trail c = true → P (c :: rest)) →
  (∀ c rest, uri_unescaped c = false → is_lead c = false →
             is_trail c = false → P rest → P (c :: rest)) →
  ∀ s, P s.
Proof.
  intros Hnil Hplain Hpair Hlead Htrail Hone s.
  assert (∀ n s, (length s < n)%nat → P s) as Hall.
  { clear s. induction n as [|n IH]; [lia|]. intros [|c rest] Hlen; [done|].
    simpl in Hlen. destruct (uri_unescaped c) eqn:Hc.
    { apply Hplain; [done|]. apply IH. lia. }
    destruct (is_lead c) eqn:Hl.
    - destruct rest as [|d rest']; [by apply Hlead|].
      destruct (is_trail d) eqn:Hd; [|by apply Hlead].
      apply Hpair; try done. apply IH. simpl in Hlen. lia.
    - destruct (is_trail c) eqn:Ht; [by apply Htrail|].
      apply Hone; try done. apply IH. lia. }
  apply (Hall (S (length s))). lia.
Qed.

Lemma escape_extra_app (a b : jsstring) :
  escape_extra (a ++ b) = escape_extra a ++ escape_extra b.
Proof. unfold escape_extra. apply flat_map_app. Qed.

Lemma hex_digit_not_extra (d : N) : is_extra (hex_digit d) = false.
Proof.
  unfold is_extra, hex_digit. destruct (N.ltb_spec d 10);
    repeat (apply orb_false_intro); apply N.eqb_neq; lia.
Qed.

(** The second pass leaves the escapes of the first pass alone. *)
Lemma escape_extra_pct_all (bs : list N) :
  escape_extra (pct_all bs) = pct_all bs.
Proof.
  unfold pct_all. induction bs as [|b bs IH]; [done|].
  cbn [flat_map]. rewrite escape_extra_app. fold (pct_all bs). f_equal; [|done].
  unfold pct, escape_extra. cbn [flat_map].
  rewrite !hex_digit_not_extra. reflexivity.
Qed.

Lemma escape_extra_unescaped (c : N) :
  uri_unescaped c = true → escape_extra [c] = encode_point c.
Proof.
  intros Hc. unfold escape_extra, encode_point. cbn [flat_map].
  rewrite app_nil_r. destruct (is_extra c) eqn:He.
  - by destruct (is_extra_cases c He) as [->|[->|[->|[->| ->]]]].
  - unfold uri_unescaped in Hc. rewrite He, orb_false_r in Hc. by rewrite Hc.
Qed.

Lemma encode_point_escaped (cp : N) :
  uri_unescaped cp = false → encode_point cp = pct_all (utf8 cp).
Proof.
  unfold uri_unescaped, encode_point. intros Hc.
  apply orb_false_elim in Hc as [-> _]. done.
Qed.

Lemma pair_not_unescaped (c d : N) :
  is_lead c = true →
  uri_unescaped ((c - 55296) * 1024 + (d - 56320) + 65536) = false.
Proof.
  intros _. destruct (uri_unescaped _) eqn:E; [|done].
  apply uri_unescaped_small in E. lia.
Qed.

End EncodeFacts.

Section EncodeStructure.

Lemma code_points_single (c : N) (rest : jsstring) :
  is_lead c = false ∨ match rest with d :: _ => is_trail d = false | [] => True end →
  code_points (c :: rest) = [c] :: code_points rest.
Proof.
  intros Hc. destruct rest as [|d rest']; [done|]. cbn [code_points].
  destruct Hc as [-> | ->]; [done|]. by rewrite andb_false_r.
Qed.

Lemma code_points_pair (c d : N) (rest : jsstring) :
  is_lead c = true → is_trail d = true →
  code_points (c :: d :: rest) = [c; d] :: code_points rest.
Proof. intros Hc Hd. cbn [code_points]. by rewrite Hc, Hd. Qed.

Lemma encodeRFC3986_unescaped (c : N) (rest : jsstring) :
  uri_unescaped c = true →
  encodeRFC3986 (c :: rest) = (encode_point c ++.) <$> encodeRFC3986 rest.
Proof.
  intros Hc. unfold encodeRFC3986. cbn [encodeURIComponent]. rewrite Hc.
  destruct (encodeURIComponent rest) as [r|]; [|done].
  cbn [fmap option_fmap option_map mbind option_bind]. f_equal.
  change (c :: r) with ([c] ++ r).
  by rewrite escape_extra_app, escape_extra_unescaped.
Qed.

Lemma encodeRFC3986_pair (c d : N) (rest : jsstring) :
  uri_unescaped c = false → is_lead c = true → is_trail d = true →
  encodeRFC3986 (c :: d :: rest)
  = (encode_point (point_value [c; d]) ++.) <$> encodeRFC3986 rest.
Proof.
  intros Hc Hl Hd. unfold encodeRFC3986. cbn [encodeURIComponent].
  rewrite Hc, Hl, Hd.
  destruct (encodeURIComponent rest) as [r|]; [|done].
  cbn [fmap option_fmap option_map mbind option_bind]. f_equal.
  rewrite escape_extra_app, escape_extra_pct_all.
  by rewrite encode_point_escaped by by apply pair_not_unescaped.
Qed.

Lemma encodeRFC3986_escaped (c : N) (rest : jsstring) :
  uri_unescaped c = false → is_lead c = false → is_trail c = false →
  encodeRFC3986 (c :: rest) = (encode_point c ++.) <$> encodeRFC3986 rest.
Proof.
  intros Hc Hl Ht. unfold encodeRFC3986. cbn [encodeURIComponent].
  rewrite Hc, Hl, Ht.
  destruct (encodeURIComponent rest) as [r|]; [|done].
  cbn [fmap option_fmap option_map mbind option_bind]. f_equal.
  rewrite escape_extra_app, escape_extra_pct_all.
  by rewrite encode_point_escaped.
Qed.

Lemma encodeRFC3986_lone_lead (c : N) (rest : jsstring) :
  is_lead c = true →
  match rest with d :: _ => is_trail d = false | [] => True end →
  encodeRFC3986 (c :: rest) = None.
Proof.
  intros Hl Hrest. unfold encodeRFC3986. cbn [encodeURIComponent].
  destruct (uri_unescaped c) eqn:Hc.
  { apply uri_unescaped_not_surrogate in Hc as [Hc _]. congruence. }
  rewrite Hl. destruct rest as [|d rest']; [done|]. by rewrite Hrest.
Qed.

Lemma encodeRFC3986_lone_trail (c : N) (rest : jsstring) :
  is_lead c = false → is_trail c = true →
  encodeRFC3986 (c :: rest) = None.
Proof.
  intros Hl Ht. unfold encodeRFC3986. cbn [encodeURIComponent].
  destruct (uri_unescaped c) eqn:Hc.
  { apply uri_unescaped_not_surrogate in Hc as [_ Hc]. congruence. }
  by rewrite Hl, Ht.
Qed.

End EncodeStructure.

(** X1: the two passes of [encodeRFC3986] ([encodeURIComponent], then the
    escape of [! ' ( ) *]) amount to RFC 3986 percent-encoding code point
    by code point: on a well-formed string the result is, for each code
    point in order, the character itself if it is unreserved and otherwise
    the [%XX] escapes of its UTF-8 bytes; on a string with a lone surrogate
    the function raises. *)
Theorem encodeRFC3986_by_code_point (s : jsstring) :
  encodeRFC3986 s
  = if isWellFormed s
    then Some (flat_map (fun p => encode_point (point_value p))
                        (code_points s))
    else None.
Proof.
  unfold isWellFormed. induction s as
    [|c rest Hc IH|c d rest Hc Hl Hd IH|c rest Hl Hrest|c rest Hl Ht
     |c rest Hc Hl Ht IH] using encoder_ind.
  - done.
  - destruct (uri_unescaped_not_surrogate c Hc) as [Hl Ht].
    rewrite encodeRFC3986_unescaped, IH by done.
    rewrite code_points_single by by left.
    cbn [forallb flat_map point_value]. rewrite Hl, Ht. simpl.
    by destruct (forallb _ _).
  - rewrite encodeRFC3986_pair, IH by done.
    rewrite code_points_pair by done. cbn [forallb flat_map]. simpl.
    by destruct (forallb _ _).
  - rewrite encodeRFC3986_lone_lead by done.
    rewrite code_points_single by by right.
    cbn [forallb]. by rewrite Hl.
  - rewrite encodeRFC3986_lone_trail by done.
    rewrite code_points_single by by left.
    cbn [forallb]. by rewrite Hl, Ht.
  - rewrite encodeRFC3986_escaped, IH by done.
    rewrite code_points_single by by left.
    cbn [forallb flat_map point_value]. rewrite Hl, Ht. simpl.
    by destruct (forallb _ _).
Qed.

(** The error case alone: a lone surrogate, and nothing else, makes the
    encoder raise. *)
Lemma encodeRFC3986_None_iff (s : jsstring) :
  encodeRFC3986 s = None ↔ isWellFormed s = false.
Proof.
  unfold isWellFormed. induction s as
    [|c rest Hc IH|c d rest Hc Hl Hd IH|c rest Hl Hrest|c rest Hl Ht
     |c rest Hc Hl Ht IH] using encoder_ind.
  - done.
  - destruct (uri_unescaped_not_surrogate c Hc) as [Hl Ht].
    rewrite encodeRFC3986_unescaped by done.
    rewrite code_points_single by by left.
    cbn [forallb]. rewrite Hl, Ht. simpl. rewrite <- IH.
    by destruct (encodeRFC3986 rest).
  - rewrite encodeRFC3986_pair by done.
    rewrite code_points_pair by done. cbn [forallb]. rewrite <- IH.
    by destruct (encodeRFC3986 rest).
  - rewrite encodeRFC3986_lone_lead by done.
    rewrite code_points_single by by right.
    cbn [forallb]. by rewrite Hl.
  - rewrite encodeRFC3986_lone_trail by done.
    rewrite code_points_single by by left.
    cbn [forallb]. by rewrite Hl, Ht.
  - rewrite encodeRFC3986_escaped by done.
    rewrite code_points_single by by left.
    cbn [forallb]. rewrite Hl, Ht. simpl. rewrite <- IH.
    by destruct (encodeRFC3986 rest).
Qed.

Section EncodeAlphabet.

Lemma length_utf8 (cp : N) : (1 ≤ length (utf8 cp) ≤ 4)%nat.
Proof. unfold utf8. repeat case_match; simpl; lia. Qed.

Lemma length_pct_all (bs : list N) : length (pct_all bs) = (3 * length bs)%nat.
Proof.
  unfold pct_all. induction bs as [|b bs IH]; [done|].
  cbn [flat_map]. rewrite length_app, IH. simpl. lia.
Qed.

Lemma length_encode_point (cp : N) :
  (if is_unreserved cp then length (encode_point cp) = 1%nat
   else 3 ≤ length (encode_point cp))%nat.
Proof.
  unfold encode_point. destruct (is_unreserved cp); [done|].
  rewrite length_pct_all. pose proof (length_utf8 cp). lia.
Qed.

Lemma encode_point_alphabet (cp : N) :
  cp < 1114112 → Forall unreserved_or_pct (encode_point cp).
Proof.
  intros Hcp. unfold encode_point. destruct (is_unreserved cp) eqn:Hu.
  - constructor; [by left|constructor].
  - by apply pct_all_alphabet, utf8_bytes.
Qed.

Lemma pair_value_bound (c d : N) :
  is_lead c = true → is_trail d = true → point_value [c; d] < 1114112.
Proof.
  unfold is_lead, is_trail, point_value. rewrite !andb_true_iff, !N.leb_le. lia.
Qed.

End EncodeAlphabet.

(** X2: on a string of UTF-16 code units, every character [encodeRFC3986]
    returns is an unreserved one (a letter, a digit, [- _ . ~]) or the
    percent sign; so the result contains none of [! ' ( ) *], no [&], [=],
    [?], [/], [+] and no space. *)
Theorem encodeRFC3986_alphabet (s r : jsstring) :
  code_units s →
  encodeRFC3986 s = Some r →
  Forall unreserved_or_pct r.
Proof.
  revert r. induction s as
    [|c rest Hc IH|c d rest Hc Hl Hd IH|c rest Hl Hrest|c rest Hl Ht
     |c rest Hc Hl Ht IH] using encoder_ind; intros r Hunits.
  - intros [= <-]. constructor.
  - rewrite encodeRFC3986_unescaped by done.
    destruct (encodeRFC3986 rest) as [r'|]; [|done]. intros [= <-].
    apply Forall_cons in Hunits as [Hu Hrest].
    apply Forall_app. split; [apply encode_point_alphabet; lia|by apply IH].
  - rewrite encodeRFC3986_pair by done.
    destruct (encodeRFC3986 rest) as [r'|]; [|done]. intros [= <-].
    apply Forall_cons in Hunits as [_ Hunits].
    apply Forall_cons in Hunits as [_ Hunits].
    apply Forall_app. split; [|by apply IH].
    by apply encode_point_alphabet, pair_value_bound.
  - by rewrite encodeRFC3986_lone_lead.
  - by rewrite encodeRFC3986_lone_trail.
  - rewrite encodeRFC3986_escaped by done.
    destruct (encodeRFC3986 rest) as [r'|]; [|done]. intros [= <-].
    apply Forall_cons in Hunits as [Hu Hrest].
    apply Forall_app. split; [apply encode_point_alphabet; lia|by apply IH].
Qed.

Lemma encodeRFC3986_alphabet_witness :
  Forall unreserved_or_pct (lit "a%7Bb%21%2A").
Proof.
  apply (encodeRFC3986_alphabet (lit "a{b!*")).
  - unfold code_units. repeat constructor.
  - vm_compute. reflexivity.
Defined.

Section EncodeIdentity.

Lemma encodeRFC3986_length (s : jsstring) :
  ∀ r, encodeRFC3986 s = Some r →
       (length s ≤ length r)%nat
       ∧ ((length r ≤ length s)%nat → forallb is_unreserved s = true).
Proof.
  induction s as
    [|c rest Hc IH|c d rest Hc Hl Hd IH|c rest Hl Hrest|c rest Hl Ht
     |c rest Hc Hl Ht IH] using encoder_ind; intros r.
  - by intros [= <-].
  - rewrite encodeRFC3986_unescaped by done.
    destruct (encodeRFC3986 rest) as [r'|]; [|done]. intros [= <-].
    destruct (IH r' eq_refl) as [Hle Hid].
    pose proof (length_encode_point c) as Hp.
    rewrite length_app. cbn [length forallb].
    destruct (is_unreserved c); [|lia].
    split; [lia|]. intros Hlen. apply Hid. lia.
  - rewrite encodeRFC3986_pair by done.
    destruct (encodeRFC3986 rest) as [r'|]; [|done]. intros [= <-].
    destruct (IH r' eq_refl) as [Hle _].
    pose proof (length_encode_point (point_value [c; d])) as Hp.
    assert (is_unreserved (point_value [c; d]) = false) as Hu.
    { pose proof (pair_not_unescaped c d Hl) as Hn.
      unfold uri_unescaped in Hn. apply orb_false_elim in Hn as [Hn _].
      exact Hn. }
    rewrite Hu in Hp. rewrite length_app. cbn [length].
    change ((c - 55296) * 1024 + (d - 56320) + 65536) with (point_value [c; d]).
    split; [lia|intros; exfalso; lia].
  - by rewrite encodeRFC3986_lone_lead.
  - by rewrite encodeRFC3986_lone_trail.
  - rewrite encodeRFC3986_escaped by done.
    destruct (encodeRFC3986 rest) as [r'|]; [|done]. intros [= <-].
    destruct (IH r' eq_refl) as [Hle _].
    pose proof (length_encode_point c) as Hp.
    assert (is_unreserved c = false) as Hu.
    { unfold uri_unescaped in Hc. apply orb_false_elim in Hc as [Hc' _].
      exact Hc'. }
    rewrite Hu in Hp. rewrite length_app. cbn [length].
    split; [lia|intros; exfalso; lia].
Qed.

Lemma encodeRFC3986_unreserved (s : jsstring) :
  forallb is_unreserved s = true → encodeRFC3986 s = Some s.
Proof.
  induction s as [|c rest IH]; [done|]. cbn [forallb].
  intros [Hc Hrest]%andb_true_iff.
  rewrite encodeRFC3986_unescaped
    by (unfold uri_unescaped; by rewrite Hc).
  rewrite IH by done. unfold encode_point. by rewrite Hc.
Qed.

End EncodeIdentity.

(** X3: [encodeRFC3986] returns its argument unchanged exactly when the
    argument consists of unreserved characters only; and it never returns
    a shorter string than it was given. *)
Theorem encodeRFC3986_identity_iff (s : jsstring) :
  (encodeRFC3986 s = Some s ↔ forallb is_unreserved s = true)
  ∧ ∀ r, encodeRFC3986 s = Some r → (length s ≤ length r)%nat.
Proof.
  split; [split|].
  - intros Hs. by apply (encodeRFC3986_length s s Hs).
  - apply encodeRFC3986_unreserved.
  - intros r Hr. by apply (encodeRFC3986_length s r Hr).
Qed.

Section EncodeInjective.

Lemma hex_digit_inj (d d' : N) :
  d < 16 → d' < 16 → hex_digit d = hex_digit d' → d = d'.
Proof.
  unfold hex_digit. intros Hd Hd'.
  destruct (N.ltb_spec d 10), (N.ltb_spec d' 10); lia.
Qed.

Lemma pct_inj (b b' : N) (ra rb : jsstring) :
  b < 256 → b' < 256 → pct b ++ ra = pct b' ++ rb → b = b' ∧ ra = rb.
Proof.
  intros Hb Hb'. unfold pct. simpl. intros [= Hh Hl Hr]. split; [|done].
  apply hex_digit_inj in Hh;
    [|apply N.Div0.div_lt_upper_bound; lia..].
  apply hex_digit_inj in Hl; [|apply N.mod_lt; lia..].
  rewrite (N.div_mod b 16), (N.div_mod b' 16) by lia. by rewrite Hh, Hl.
Qed.

Ltac bytes_arith := zify; Z.to_euclidean_division_equations; lia.

(** UTF-8 is prefix-free, and so are its escapes. *)
Lemma utf8_escapes_prefix_free (x y : N) (ra rb : jsstring) :
  x < 1114112 → y < 1114112 →
  pct_all (utf8 x) ++ ra = pct_all (utf8 y) ++ rb → x = y.
Proof.
  intros Hx Hy. unfold utf8.
  destruct (N.ltb_spec x 128) as [X1|X1];
    [|destruct (N.ltb_spec x 2048) as [X2|X2];
      [|destruct (N.ltb_spec x 65536) as [X3|X3]]];
  (destruct (N.ltb_spec y 128) as [Y1|Y1];
    [|destruct (N.ltb_spec y 2048) as [Y2|Y2];
      [|destruct (N.ltb_spec y 65536) as [Y3|Y3]]]);
  unfold pct_all; cbn [flat_map]; rewrite <- ?app_assoc; intros Heq;
  repeat match type of Heq with
         | pct _ ++ _ = pct _ ++ _ =>
             let Hb := fresh "Hb" in
             apply pct_inj in Heq as [Hb Heq]; [|bytes_arith..]
         end;
  bytes_arith.
Qed.

Lemma unreserved_not_pct (c : N) : is_unreserved c = true → c ≠ 37.
Proof. by intros Hc ->. Qed.

Lemma encode_point_prefix_free (x y : N) (ra rb : jsstring) :
  x < 1114112 → y < 1114112 →
  encode_point x ++ ra = encode_point y ++ rb → x = y ∧ ra = rb.
Proof.
  intros Hx Hy Heq.
  assert (x = y) as ->; [|split; [done|by apply app_inv_head in Heq]].
  unfold encode_point in Heq.
  destruct (is_unreserved x) eqn:Ux, (is_unreserved y) eqn:Uy.
  - by simplify_eq/=.
  - pose proof (length_utf8 y). unfold pct_all in Heq.
    destruct (utf8 y) as [|b bs]; [simpl in *; lia|].
    simpl in Heq. injection Heq as -> _. by apply unreserved_not_pct in Ux.
  - pose proof (length_utf8 x). unfold pct_all in Heq.
    destruct (utf8 x) as [|b bs]; [simpl in *; lia|].
    simpl in Heq. injection Heq as <- _. by apply unreserved_not_pct in Uy.
  - by eapply utf8_escapes_prefix_free.
Qed.

Lemma valid_point_bound (p : jsstring) :
  valid_point p → point_value p < 1114112.
Proof.
  intros [(c & -> & Hc & _)|(c & d & -> & Hl & Hd)]; [simpl; lia|].
  by apply pair_value_bound.
Qed.

Lemma point_value_inj (p q : jsstring) :
  valid_point p → valid_point q → point_value p = point_value q → p = q.
Proof.
  unfold valid_point, is_lead, is_trail.
  intros [(c & -> & Hc & _)|(c & d & -> & Hl & Hd)]
         [(c' & -> & Hc' & _)|(c' & d' & -> & Hl' & Hd')]; simpl;
    rewrite ?andb_true_iff, ?N.leb_le in *; intros Hv.
  - by subst.
  - lia.
  - lia.
  - assert (c = c' ∧ d = d') as [-> ->] by lia. done.
Qed.

(** A string that encodes is empty or starts with a code point whose
    encoding starts the result. *)
Lemma encodeRFC3986_head (s r : jsstring) :
  code_units s →
  encodeRFC3986 s = Some r →
  (s = [] ∧ r = [])
  ∨ ∃ p rest r',
      s = p ++ rest ∧ valid_point p ∧ code_units rest
      ∧ encodeRFC3986 rest = Some r'
      ∧ r = encode_point (point_value p) ++ r'.
Proof.
  intros Hunits H.
  destruct s as [|c rest]; [injection H as <-; by left|]. right.
  apply Forall_cons in Hunits as [Hu Hunits].
  destruct (uri_unescaped c) eqn:Hc.
  { rewrite encodeRFC3986_unescaped in H by done.
    destruct (encodeRFC3986 rest) as [r'|] eqn:Hr; [|done].
    simplify_eq/=. exists [c], rest, r'.
    destruct (uri_unescaped_not_surrogate c Hc) as [Hl Ht].
    repeat split; try done. left. by exists c. }
  destruct (is_lead c) eqn:Hl.
  - destruct rest as [|d rest'];
      [by rewrite encodeRFC3986_lone_lead in H|].
    destruct (is_trail d) eqn:Hd;
      [|by rewrite encodeRFC3986_lone_lead in H].
    rewrite encodeRFC3986_pair in H by done.
    destruct (encodeRFC3986 rest') as [r'|] eqn:Hr; [|done].
    simplify_eq/=. exists [c; d], rest', r'.
    apply Forall_cons in Hunits as [_ Hunits].
    repeat split; try done. right. by exists c, d.
  - destruct (is_trail c) eqn:Ht;
      [by rewrite encodeRFC3986_lone_trail in H|].
    rewrite encodeRFC3986_escaped in H by done.
    destruct (encodeRFC3986 rest) as [r'|] eqn:Hr; [|done].
    simplify_eq/=. exists [c], rest, r'.
    repeat split; try done. left. by exists c.
Qed.

Lemma encode_point_nonempty (cp : N) : encode_point cp ≠ [].
Proof.
  pose proof (length_encode_point cp) as Hl.
  destruct (encode_point cp); [|done].
  destruct (is_unreserved cp); simpl in Hl; lia.
Qed.

Lemma valid_point_nonempty (p : jsstring) : valid_point p → (0 < length p)%nat.
Proof.
  intros [(c & -> & _)|(c & d & -> & _)]; simpl; lia.
Qed.

Lemma encodeRFC3986_inj_by_length (n : nat) :
  ∀ a b r, (length a < n)%nat → code_units a → code_units b →
           encodeRFC3986 a = Some r → encodeRFC3986 b = Some r → a = b.
Proof.
  induction n as [|n IH]; [lia|]. intros a b r Hlen Ha Hb Hra Hrb.
  destruct (encodeRFC3986_head a r Ha Hra)
    as [[-> ->]|(pa & ra & r1 & -> & Hpa & Hua & Hea & ->)];
  destruct (encodeRFC3986_head b _ Hb Hrb)
    as [[-> Hr]|(pb & rb & r2 & -> & Hpb & Hub & Heb & Hr)].
  - done.
  - symmetry in Hr. apply app_eq_nil in Hr as [Hr _].
    by apply encode_point_nonempty in Hr.
  - apply app_eq_nil in Hr as [Hr _].
    by apply encode_point_nonempty in Hr.
  - apply encode_point_prefix_free in Hr as [Hv ->];
      [|by apply valid_point_bound..].
    apply point_value_inj in Hv as ->; [|done..].
    f_equal. apply (IH ra rb r2); try done.
    rewrite length_app in Hlen. pose proof (valid_point_nonempty _ Hpa). lia.
Qed.

End EncodeInjective.

(** X4: [encodeRFC3986] is injective on strings of UTF-16 code units: two
    strings with the same encoding are the same string, so distinct
    parameter names or values never collide in the query string. *)
Theorem encodeRFC3986_injective (a b r : jsstring) :
  code_units a → code_units b →
  encodeRFC3986 a = Some r → encodeRFC3986 b = Some r → a = b.
Proof.
  intros Ha Hb. apply (encodeRFC3986_inj_by_length (S (length a))); [lia|done..].
Qed.

Lemma encodeRFC3986_injective_witness : lit "a{b!*" = lit "a{b!*".
Proof.
  apply (encodeRFC3986_injective (lit "a{b!*") (lit "a{b!*") (lit "a%7Bb%21%2A"));
    try (unfold code_units; repeat constructor); by vm_compute.
Defined.

(** ** More about [buildQueryString] and [formatSignedUrl] *)

Section QueryMore.

(** The string in one equation: the pairs of the groups, encoded and
    joined, or the error of the first pair that does not encode. *)
Lemma buildQueryString_eq (q : gmap jsstring qvalue) :
  buildQueryString (Some q)
  = (fun encoded => join (lit "&") (pair_text <$> encoded))
    <$> mapM encode_pair (expand (omap (group q) (sort (Object_keys q)))).
Proof.
  unfold buildQueryString. simpl. rewrite push_keys_spec.
  assert (∀ l, mapM (fun p : jsstring * jsstring => pair_string p.1 p.2) l
               = fmap pair_text <$> mapM encode_pair l) as Hm.
  { intros l. rewrite <- mapM_fmap_out. apply mapM_ext.
    intros [k v]. apply pair_string_encode. }
  rewrite Hm. by destruct (mapM encode_pair _).
Qed.

Lemma elem_of_expand (groups : list (jsstring * list jsstring))
    (k v : jsstring) :
  (k, v) ∈ expand groups ↔ ∃ vs, (k, vs) ∈ groups ∧ v ∈ vs.
Proof.
  unfold expand. rewrite list_elem_of_In, in_flat_map. split.
  - intros ([k' vs] & Hg & Hin). apply list_elem_of_In in Hg, Hin.
    apply list_elem_of_fmap in Hin as (v' & [= -> ->] & Hv).
    by exists vs.
  - intros (vs & Hg & Hv). exists (k, vs).
    rewrite <- !list_elem_of_In. split; [done|].
    apply list_elem_of_fmap. by exists v.
Qed.

(** The groups hold exactly the pairs that have to be listed. *)
Lemma elem_of_expand_groups (q : gmap jsstring qvalue) (k v : jsstring) :
  (k, v) ∈ expand (omap (group q) (sort (Object_keys q))) ↔ listed q k v.
Proof.
  rewrite elem_of_expand. unfold listed. split.
  - intros (vs & Hg & Hv).
    apply list_elem_of_omap in Hg as (k' & _ & Hgk). unfold group in Hgk.
    destruct (q !! k') as [[| |v'|vs']|] eqn:Hk; simplify_eq.
    + left. by apply list_elem_of_singleton in Hv as ->.
    + right. exists vs'. split; [done|]. by rewrite <- sort_permutation.
  - pose proof (groups_content q k) as Hk. simpl in Hk.
    intros [Hq|(vs & Hq & Hv)]; rewrite Hq in Hk.
    + exists [v]. split; [done|]. by apply list_elem_of_singleton.
    + exists (sort vs). split; [done|]. by rewrite sort_permutation.
Qed.

Lemma encode_pair_None_iff (p : jsstring * jsstring) :
  encode_pair p = None
  ↔ isWellFormed p.1 = false ∨ isWellFormed p.2 = false.
Proof.
  unfold encode_pair. rewrite <- !encodeRFC3986_None_iff.
  destruct (encodeRFC3986 p.1), (encodeRFC3986 p.2); simpl;
    split; try done; try (by left); try (by right); by intros [|].
Qed.

Lemma pair_text_nonempty (p : jsstring * jsstring) : pair_text p ≠ [].
Proof. unfold pair_text. by destruct (p.1). Qed.

Lemma join_nil_inv (pieces : list jsstring) :
  Forall (fun p => p ≠ []) pieces → join (lit "&") pieces = [] → pieces = [].
Proof.
  intros Hall. destruct Hall as [|p pieces Hp _]; [done|].
  destruct pieces; simpl; by destruct p.
Qed.

End QueryMore.

(** X5: [buildQueryString] raises exactly when a key it has to list, or
    one of the values listed with it, is not well-formed UTF-16; keys whose
    value is [null], [undefined] or an empty array never make it raise,
    whatever they contain. *)
Theorem buildQueryString_raises_iff (q : gmap jsstring qvalue) :
  buildQueryString (Some q) = None
  ↔ ∃ k v, listed q k v
           ∧ (isWellFormed k = false ∨ isWellFormed v = false).
Proof.
  rewrite buildQueryString_eq, fmap_None, mapM_None, Exists_exists.
  split.
  - intros ([k v] & Hin & Hnone). exists k, v.
    split; [by apply elem_of_expand_groups|].
    by apply encode_pair_None_iff in Hnone.
  - intros (k & v & Hl & Hbad). exists (k, v).
    split; [by apply elem_of_expand_groups|].
    by apply encode_pair_None_iff.
Qed.

(** X6: [buildQueryString] returns the empty string exactly when there is
    nothing to list: every value of the bag is [null], [undefined] or an
    empty array (an empty bag included); a missing bag gives the empty
    string too. *)
Theorem buildQueryString_empty_iff (q : gmap jsstring qvalue) :
  (buildQueryString (Some q) = Some [] ↔ ∀ k v, ¬ listed q k v)
  ∧ buildQueryString None = Some [].
Proof.
  split; [|reflexivity]. rewrite buildQueryString_eq. split.
  - intros Hs k v Hl. apply elem_of_expand_groups in Hl.
    destruct (mapM encode_pair _) as [encoded|] eqn:Henc; [|done].
    simpl in Hs. injection Hs as Hs.
    apply join_nil_inv in Hs.
    + apply fmap_nil_inv in Hs as ->. apply mapM_Some_1 in Henc.
      apply Forall2_nil_inv_r in Henc. rewrite Henc in Hl.
      by apply not_elem_of_nil in Hl.
    + apply Forall_fmap, Forall_forall. intros p _. apply pair_text_nonempty.
  - intros Hnone.
    assert (expand (omap (group q) (sort (Object_keys q))) = []) as ->.
    { apply elem_of_nil_inv. intros [k v] Hin.
      apply elem_of_expand_groups in Hin. by apply (Hnone k v). }
    done.
Qed.

Section QueryAscending.

Lemma encode_row (k : jsstring) (vs : list jsstring)
    (row : list (jsstring * jsstring)) :
  unreserved k →
  mapM encode_pair ((fun v => (k, v)) <$> vs) = Some row →
  Forall (fun e => e.1 = k) row
  ∧ (Forall unreserved vs → row = (fun v => (k, v)) <$> vs).
Proof.
  intros Hk Hrow. apply mapM_Some_1 in Hrow. revert row Hrow.
  induction vs as [|v vs IH]; intros row Hrow.
  - apply Forall2_nil_inv_l in Hrow as ->. by split.
  - rewrite fmap_cons in Hrow.
    apply Forall2_cons_inv_l in Hrow as (e & row' & He & Hrow' & ->).
    unfold encode_pair in He. cbn [fst snd] in He.
    rewrite (encodeRFC3986_unreserved k Hk) in He.
    destruct (encodeRFC3986 v) as [ev|] eqn:Hv; [|done].
    simpl in He. injection He as <-.
    destruct (IH row' Hrow') as [Hkeys Hid].
    split; [by constructor|].
    intros [Hu Hus]%Forall_cons. rewrite Hid by done.
    rewrite (encodeRFC3986_unreserved v Hu) in Hv. by simplify_eq.
Qed.

Lemma row_ascending (k : jsstring) (vs : list jsstring) :
  StronglySorted Js.le vs →
  StronglySorted pair_ascending ((fun v => (k, v)) <$> vs).
Proof.
  induction 1 as [|v vs _ IH Hall]; [constructor|].
  rewrite fmap_cons. constructor; [done|].
  apply Forall_fmap. eapply Forall_impl; [exact Hall|].
  intros v' Hle. by right.
Qed.

(** The encoded pairs of plain groups in key order ascend. *)
Lemma plain_groups_ascending (groups : list (jsstring * list jsstring)) :
  ∀ encoded,
    StronglySorted Js.lt groups.*1 →
    Forall plain_group groups →
    mapM encode_pair (expand groups) = Some encoded →
    StronglySorted pair_ascending encoded
    ∧ Forall (fun e => e.1 ∈ groups.*1) encoded.
Proof.
  induction groups as [|[k vs] groups IH]; intros encoded Hsorted Hplain.
  - intros [= <-]. split; constructor.
  - cbn [expand flat_map fst snd]. fold (expand groups).
    rewrite mapM_app. rewrite fmap_cons in Hsorted.
    apply StronglySorted_inv in Hsorted as [Hsorted Hlt].
    apply Forall_cons in Hplain as [[Hk Hvs] Hplain]. simpl in Hk, Hvs, Hlt.
    destruct (mapM encode_pair ((fun v => (k, v)) <$> vs)) as [row|] eqn:Hrow;
      [|done].
    destruct (mapM encode_pair (expand groups)) as [rest|] eqn:Hrest; [|done].
    simpl. intros [= <-].
    destruct (encode_row k vs row Hk Hrow) as [Hkeys Hid].
    destruct (IH rest Hsorted Hplain eq_refl) as [Hasc Hin].
    split.
    + apply StronglySorted_app_2; [| |done].
      * intros x1 x2 Hx1 Hx2. left.
        rewrite (proj1 (Forall_forall _ _) Hkeys x1 Hx1).
        apply (proj1 (Forall_forall _ _) Hlt).
        apply (proj1 (Forall_forall _ _) Hin). exact Hx2.
      * destruct Hvs as [[v ->]|[Hu Hs]].
        -- apply mapM_Some_1 in Hrow. apply Forall2_length in Hrow.
           destruct row as [|e [|e' row]]; try done.
           repeat constructor.
        -- rewrite (Hid Hu). by apply row_ascending.
    + apply Forall_app. split.
      * eapply Forall_impl; [exact Hkeys|]. intros e ->.
        apply list_elem_of_here.
      * eapply Forall_impl; [exact Hin|]. intros e He.
        by apply list_elem_of_further.
Qed.

Lemma groups_plain (q : gmap jsstring qvalue) (keys : list jsstring) :
  plain_keys q → Forall plain_group (omap (group q) keys).
Proof.
  intros Hq. apply Forall_forall. intros g Hg.
  apply list_elem_of_omap in Hg as (k & _ & Hgk). unfold group in Hgk.
  specialize (Hq k).
  destruct (q !! k) as [[| |v|vs]|]; simplify_eq.
  - split; [done|]. left. by exists v.
  - destruct Hq as [Hk Hvs]. split; [done|]. right.
    split; [by rewrite sort_permutation|apply sort_sorted].
Qed.

End QueryAscending.

(** X7: when the keys the bag lists and the values of its arrays consist of
    unreserved characters only (as the parameter names of the signed URL
    do), percent-encoding changes none of them, and the query string lists
    its pairs in strictly ascending order of the encoded keys, the values
    of one key in ascending order. *)
Theorem buildQueryString_ascending_plain (q : gmap jsstring qvalue)
    (s : jsstring) :
  plain_keys q →
  buildQueryString (Some q) = Some s →
  lists_ascending s.
Proof.
  intros Hq Hs. rewrite buildQueryString_eq in Hs.
  destruct (mapM encode_pair _) as [encoded|] eqn:Henc; [|done].
  simpl in Hs. injection Hs as <-. unfold lists_ascending.
  rewrite parse_join.
  - eapply plain_groups_ascending; [| |exact Henc].
    + apply groups_keys_sorted, sorted_keys_strict.
    + by apply groups_plain.
  - apply mapM_Some_1 in Henc.
    induction Henc as [|p e l l' Hpe _ IH]; [constructor|].
    constructor; [by eapply encode_pair_plain|done].
Qed.

Lemma buildQueryString_ascending_plain_witness :
  lists_ascending
    (lit "language-code=en-US&media-encoding=pcm&sample-rate=16000&v=a&v=b").
Proof.
  apply (buildQueryString_ascending_plain
           (<[lit "v" := QArr [lit "b"; lit "a"]]>
              (<[lit "sample-rate" := QStr (lit "16000")]>
                 (<[lit "language-code" := QStr (lit "en-US")]>
                    {[lit "media-encoding" := QStr (lit "pcm")]})))).
  - intros k.
    destruct (decide (k = lit "v")) as [->|Hv]; [vm_compute; repeat constructor|].
    rewrite lookup_insert_ne by done.
    destruct (decide (k = lit "sample-rate")) as [->|Hs]; [by vm_compute|].
    rewrite lookup_insert_ne by done.
    destruct (decide (k = lit "language-code")) as [->|Hl]; [by vm_compute|].
    rewrite lookup_insert_ne by done.
    destruct (decide (k = lit "media-encoding")) as [->|Hm]; [by vm_compute|].
    by rewrite lookup_singleton_ne.
  - by vm_compute.
Defined.

Section UrlFacts.



End UrlFacts.



(** ** More about [extractTranscriptParts] *)

Section ExtractMore.

Lemma extract_eq (json : value) :
  extractTranscriptParts json
  = match iterate (results_of json) with
    | Some results =>
        if decide (Forall (fun r => nullish r = false) results)
        then Some (segments_of_results results)
        else None
    | None => None
    end.
Proof.
  unfold extractTranscriptParts.
  destruct (iterate (results_of json)) as [results|]; [|done]. simpl.
  case_decide.
  - by rewrite for_results_all.
  - by apply for_results_raises.
Qed.

Lemma segments_have_text (results : list value) :
  Forall (fun seg => truthy (text seg) = true) (segments_of_results results).
Proof.
  unfold segments_of_results. apply Forall_fmap, Forall_forall.
  intros r Hr. apply list_elem_of_filter in Hr as [Hr _].
  unfold has_text in Hr. simpl. by apply Is_true_true.
Qed.

End ExtractMore.

(** X9: every segment [extractTranscriptParts] returns has a non-empty
    (truthy) text, there are never more segments than results, and a
    payload whose results all lack text yields no segment. *)
Theorem extract_text_never_empty (json : value)
    (segments : list TranscriptSegment) (results : list value) :
  extractTranscriptParts json = Some segments →
  iterate (results_of json) = Some results →
  Forall (fun seg => truthy (text seg) = true) segments
  ∧ (length segments ≤ length results)%nat
  ∧ (Forall (fun r => has_text r = false) results → segments = []).
Proof.
  intros Hs Hr. rewrite extract_eq, Hr in Hs.
  case_decide; [|done]. injection Hs as <-.
  split; [apply segments_have_text|]. unfold segments_of_results. split.
  - rewrite length_fmap. apply length_filter.
  - intros Hnone.
    assert (filter (fun r : value => has_text r) results = []) as ->; [|done].
    apply elem_of_nil_inv. intros r Hin.
    apply list_elem_of_filter in Hin as [Ht Hin].
    rewrite Forall_forall in Hnone. rewrite (Hnone r Hin) in Ht. done.
Qed.

Lemma extract_text_never_empty_witness :
  Forall (fun seg => truthy (text seg) = true)
    [ {| text := VStr (lit "hello"); isPartial := true;
         startTime := of_Z 1; endTime := VNull |};
      {| text := VStr (lit "bye"); isPartial := false;
         startTime := of_Z 1; endTime := VNull |} ].
Proof.
  apply (extract_text_never_empty payload_demo _
           [result_demo "hello" true; result_demo "" false;
            result_demo "bye" false]); reflexivity.
Defined.

(** ** More about the handlers *)

Example transcript_frame_decodes :
  @unmarshall demo_runtime transcript_frame = Some transcript_message.
Proof. vm_compute. reflexivity. Qed.

Section SessionMore.

Context `{Runtime}.

Lemma on_message_transcript (data : list byte) (m : Message) :
  unmarshall data = Some m →
  header (lit ":message-type") (headers m) = Some (lit "event") →
  header (lit ":event-type") (headers m) = Some (lit "TranscriptEvent") →
  on_message data
  = (fun p => Emit (lit "transcript") (segment_value p))
    <$> default [] (extractTranscriptParts (parseJsonBody (body m))).
Proof.
  intros Hm Ht He. unfold on_message. rewrite Hm, Ht, He.
  rewrite decide_True by done. by destruct (extractTranscriptParts _).
Qed.

Lemma on_message_notices (data : list byte) :
  Forall client_notice (on_message data).
Proof.
  unfold on_message. destruct (unmarshall data) as [m|]; [|constructor].
  case_decide.
  - destruct (extractTranscriptParts _) as [parts|]; [|constructor].
    apply Forall_fmap, Forall_forall. intros p _. eexists. by left.
  - case_decide; [|constructor].
    constructor; [|constructor]. eexists. by right.
Qed.

End SessionMore.

(** X10: an inbound frame of type event/TranscriptEvent whose body is JSON
    with a results array free of [null] makes the session emit one
    "transcript" event for each result that has text, in the order of the
    results, each carrying text, isPartial, startTime and endTime, and
    nothing else; the session itself is unchanged. *)
Theorem transcript_frame_forwarded `{Runtime}
    (s : Session) (c : nat) (data : list byte) (m : Message)
    (json : value) (results : list value) :
  unmarshall data = Some m →
  header (lit ":message-type") (headers m) = Some (lit "event") →
  header (lit ":event-type") (headers m) = Some (lit "TranscriptEvent") →
  JSON_parse (toString_utf8 (body m)) = Some json →
  iterate (results_of json) = Some results →
  Forall (fun r => nullish r = false) results →
  step (WsMessage c data) s
  = (s, (fun r => Emit (lit "transcript")
                    (VObj [(lit "text", text_of_result r);
                           (lit "isPartial",
                            VBool (truthy (get_opt r (lit "IsPartial"))));
                           (lit "startTime",
                            coalesce (get_opt r (lit "StartTime")) VNull);
                           (lit "endTime",
                            coalesce (get_opt r (lit "EndTime")) VNull)]))
        <$> filter has_text results).
Proof.
  intros Hm Ht He Hjson Hres Hall. cbn [step].
  rewrite (on_message_transcript data m) by done.
  unfold parseJsonBody. rewrite Hjson. simpl.
  rewrite extract_eq, Hres. rewrite decide_True by done. simpl.
  unfold segments_of_results. by rewrite <- list_fmap_compose.
Qed.

Lemma transcript_frame_forwarded_witness :
  @step demo_runtime (WsMessage 0 transcript_frame) streaming
  = (streaming,
     [Emit (lit "transcript")
        (VObj [(lit "text", VStr (lit "hello"));
               (lit "isPartial", VBool true);
               (lit "startTime", of_Z 1);
               (lit "endTime", VNull)]);
      Emit (lit "transcript")
        (VObj [(lit "text", VStr (lit "bye"));
               (lit "isPartial", VBool false);
               (lit "startTime", of_Z 1);
               (lit "endTime", VNull)])]).
Proof.
  apply (@transcript_frame_forwarded demo_runtime streaming O
           transcript_frame transcript_message payload_demo
           [result_demo "hello" true; result_demo "" false;
            result_demo "bye" false]); try (by vm_compute).
  repeat constructor.
Defined.

(** X11: whatever bytes arrive from upstream, the message handler leaves
    the session as it was and can only emit "transcript" and "error"
    events to the client: it never sends upstream, closes, signs or
    throws.  Bytes that do not decode, a frame that is neither an exception
    nor an event/TranscriptEvent, and a transcript frame whose body is not
    JSON all produce nothing at all. *)
Theorem upstream_message_contained `{Runtime}
    (s : Session) (c : nat) (data : list byte) :
  (step (WsMessage c data) s).1 = s
  ∧ Forall client_notice (step (WsMessage c data) s).2
  ∧ (unmarshall data = None → (step (WsMessage c data) s).2 = [])
  ∧ (∀ m, unmarshall data = Some m →
          header (lit ":message-type") (headers m) ≠ Some (lit "exception") →
          (header (lit ":message-type") (headers m) ≠ Some (lit "event")
           ∨ header (lit ":event-type") (headers m)
             ≠ Some (lit "TranscriptEvent")
           ∨ JSON_parse (toString_utf8 (body m)) = None) →
          (step (WsMessage c data) s).2 = []).
Proof.
  cbn [step fst snd]. split; [done|]. split; [apply on_message_notices|].
  split.
  - intros Hnone. unfold on_message. by rewrite Hnone.
  - intros m Hm Hnot Hcase. unfold on_message. rewrite Hm.
    case_decide as Hevent.
    + destruct Hevent as [Ht He].
      destruct Hcase as [Hcase|[Hcase|Hcase]]; [done..|].
      unfold parseJsonBody. rewrite Hcase. done.
    + by rewrite decide_False.
Qed.

Section AudioMore.

Context `{Runtime}.

Lemma on_audio_cases (msg : value) (s : Session) :
  on_audio msg s = (s, [])
  ∨ on_audio msg s = (s, [Uncaught (lit "TypeError")])
  ∨ on_audio msg s = (s, [error_event (lit "Bad audio chunk")])
  ∨ ∃ c payload, open_upstream s = Some c
                 ∧ on_audio msg s = (s, [WsSend c payload]).
Proof.
  unfold on_audio. destruct (open_upstream s) as [c|]; [|by left].
  destruct (get _ _) as [b64|]; [|by right; left].
  destruct (negb (truthy b64)); [by left|].
  destruct (Buffer_from b64) as [bytes|]; [|by right; right; left].
  destruct (marshall _) as [payload|]; [|by right; right; left].
  right. right. right. by exists c, payload.
Qed.

End AudioMore.

(** X12: an audio message never changes the session and has at most one
    effect, whatever it carries: nothing, one frame sent to the open
    connection the session references, one "Bad audio chunk" error, or
    the [TypeError] of reading [chunkBase64] off [null].  It never
    closes a connection and never asks for a signature. *)
Theorem audio_contained `{Runtime} (msg : value) (s : Session) :
  (step (ClientAudio msg) s).1 = s
  ∧ ((step (ClientAudio msg) s).2 = []
     ∨ (step (ClientAudio msg) s).2 = [Uncaught (lit "TypeError")]
     ∨ (step (ClientAudio msg) s).2 = [error_event (lit "Bad audio chunk")]
     ∨ ∃ c payload, ws s = Some c ∧ sockets s !! c = Some OPEN
                    ∧ (step (ClientAudio msg) s).2 = [WsSend c payload]).
Proof.
  cbn [step].
  destruct (on_audio_cases msg s) as [E|[E|[E|(c & payload & Hc & E)]]];
    rewrite E; (split; [done|]); auto.
  right. right. right. exists c, payload.
  by destruct (open_upstream_ws s c Hc).
Qed.

(** X13: a truthy [chunkBase64] that is a number or a boolean, received
    while an open upstream connection is held, is reported with exactly one
    "error" event whose message is "Bad audio chunk"; nothing is sent
    upstream and the session stays as it was, open. *)
Theorem bad_chunk_reported `{Runtime}
    (s : Session) (c : nat) (msg b64 : value) :
  ws s = Some c →
  sockets s !! c = Some OPEN →
  get (default_arg msg) (lit "chunkBase64") = Some b64 →
  truthy b64 = true →
  (∃ n, b64 = VNum n) ∨ (∃ b, b64 = VBool b) →
  step (ClientAudio msg) s = (s, [error_event (lit "Bad audio chunk")]).
Proof.
  intros Hws Hopen Hget Htruthy Hkind. cbn [step].
  unfold on_audio, open_upstream. rewrite Hws. simpl.
  rewrite decide_True by done. rewrite Hget, Htruthy. simpl.
  by destruct Hkind as [[n ->]|[b ->]].
Qed.

Lemma bad_chunk_reported_witness :
  @step wire_runtime (ClientAudio (VObj [(lit "chunkBase64", of_Z 7)]))
        streaming
  = (streaming, [error_event (lit "Bad audio chunk")]).
Proof.
  apply (@bad_chunk_reported wire_runtime streaming O
           (VObj [(lit "chunkBase64", of_Z 7)]) (of_Z 7)); try reflexivity.
  left. by eexists.
Defined.

Section RunInvariant.

Context `{Runtime}.

Lemma well_targeted_app (n : nat) (a b : list Effect) :
  well_targeted n (a ++ b)
  ↔ well_targeted n a ∧ well_targeted (n + count_new a) b.
Proof.
  revert n. induction a as [|e a IH]; intros n.
  - simpl. unfold count_new. simpl. rewrite Nat.add_0_r. tauto.
  - destruct e; cbn [app well_targeted];
      try (rewrite IH; unfold count_new; simpl;
           rewrite ?filter_cons_False by (simpl; tauto); tauto).
    rewrite IH. unfold count_new.
    rewrite filter_cons_True by done. simpl.
    rewrite Nat.add_succ_r. tauto.
Qed.

Lemma well_targeted_emits {A} (n : nat) (ev : jsstring)
    (f : A → value) (l : list A) :
  well_targeted n ((fun p => Emit ev (f p)) <$> l)
  ∧ count_new ((fun p => Emit ev (f p)) <$> l) = O.
Proof.
  induction l as [|x l [IH1 IH2]]; [done|]. split; [done|].
  unfold count_new in *. rewrite fmap_cons.
  by rewrite filter_cons_False by (simpl; tauto).
Qed.

Lemma on_message_targets (n : nat) (data : list byte) :
  well_targeted n (on_message data) ∧ count_new (on_message data) = O.
Proof.
  unfold on_message. repeat case_match; try done.
  apply well_targeted_emits.
Qed.

Lemma set_ready_valid (c : nat) (r : readyState) (s : Session) :
  ws_valid s → ws_valid (set_ready c r s).
Proof.
  unfold ws_valid, set_ready. simpl. intros Hs c' Hc'.
  rewrite length_insert. by apply Hs.
Qed.

Lemma close_if_open_facts (code : Z) (reason : jsstring) (s : Session) :
  ws_valid s →
  ws_valid (close_if_open code reason s).1
  ∧ length (sockets (close_if_open code reason s).1) = length (sockets s)
  ∧ well_targeted (length (sockets s)) (close_if_open code reason s).2
  ∧ count_new (close_if_open code reason s).2 = O.
Proof.
  intros Hs. unfold close_if_open.
  destruct (open_upstream s) as [c|] eqn:Hc; simpl; [|done].
  apply open_upstream_ws in Hc as [Hws _].
  rewrite length_insert. repeat split; try done.
  - by apply set_ready_valid.
  - by apply Hs.
Qed.

(** One step: the reference stays valid, connections are only added, and
    the effects are well targeted. *)
Lemma step_targets (e : Event) (s : Session) :
  ws_valid s →
  ws_valid (step e s).1
  ∧ length (sockets (step e s).1)
    = (length (sockets s) + count_new (step e s).2)%nat
  ∧ well_targeted (length (sockets s)) (step e s).2.
Proof.
  intros Hs. destruct e; cbn [step].
  - unfold on_start. repeat case_match; simpl; rewrite ?Nat.add_0_r; done.
  - destruct (on_audio_cases msg s) as [E|[E|[E|(c & payload & Hc & E)]]];
      rewrite E; simpl; rewrite ?Nat.add_0_r; try done.
    repeat split; try done. apply Hs.
    by apply open_upstream_ws in Hc as [Hws _].
  - unfold on_stop.
    destruct (close_if_open_facts 1000 (lit "client stop") s Hs)
      as (Hv & Hl & Ht & Hn).
    destruct (close_if_open 1000 (lit "client stop") s) as [s' out].
    simpl in *. split; [by intros c [=]|]. split.
    + unfold count_new in *. rewrite filter_app, length_app, Hn. simpl. lia.
    + apply well_targeted_app. by rewrite Hn.
  - unfold on_disconnect.
    destruct (close_if_open_facts 1001 (lit "client disconnect") s Hs)
      as (Hv & Hl & Ht & Hn).
    rewrite Hn, Nat.add_0_r. done.
  - unfold on_presigned, ws_valid. cbn [fst snd ws sockets].
    rewrite length_app. cbn [length]. repeat split; try done.
    intros c [= <-]. lia.
  - simpl. rewrite Nat.add_0_r. repeat split; try done; by intros c [=].
  - simpl. rewrite length_insert, Nat.add_0_r.
    repeat split; try done; by apply set_ready_valid.
  - simpl. destruct (on_message_targets (length (sockets s)) data) as [Ht Hn].
    rewrite Hn, Nat.add_0_r. done.
  - simpl. rewrite length_insert, Nat.add_0_r.
    repeat split; try done; by intros c' [=].
  - simpl. rewrite Nat.add_0_r. repeat split; try done; by intros c' [=].
Qed.

Lemma run_targets (es : list Event) (s : Session) :
  ws_valid s →
  ws_valid (run es s).1
  ∧ length (sockets (run es s).1)
    = (length (sockets s) + count_new (run es s).2)%nat
  ∧ well_targeted (length (sockets s)) (run es s).2.
Proof.
  revert s. induction es as [|e es IH]; intros s Hs.
  - simpl. unfold count_new. simpl. rewrite Nat.add_0_r. done.
  - cbn [run]. destruct (step_targets e s Hs) as (Hv & Hl & Ht).
    destruct (step e s) as [s1 out1]. simpl in Hv, Hl, Ht.
    destruct (IH s1 Hv) as (Hv' & Hl' & Ht').
    destruct (run es s1) as [s2 out2]. simpl in *.
    split; [done|]. split.
    + unfold count_new in *. rewrite filter_app, length_app. lia.
    + apply well_targeted_app. split; [done|]. by rewrite <- Hl.
Qed.

End RunInvariant.

(** X14: in every run of a session from its initial state, whatever the
    client and the upstream do and in whatever order, the connections are
    created one at a time and numbered in order, every frame sent and every
    close request goes to a connection created earlier in the run, and the
    connection the session references at the end is one of those
    created. *)
Theorem run_well_targeted `{Runtime} (es : list Event) :
  well_targeted 0 (run es initial).2
  ∧ length (sockets (run es initial).1) = count_new (run es initial).2
  ∧ ∀ c, ws (run es initial).1 = Some c →
         (c < count_new (run es initial).2)%nat.
Proof.
  destruct (run_targets es initial) as (Hv & Hl & Ht); [by intros c [=]|].
  simpl in Hl, Ht. split; [done|]. split; [done|].
  intros c Hc. rewrite <- Hl. by apply Hv.
Qed.

Section TraceFacts.

Context `{Runtime}.

(** An accepted start with a message that is not [null]. *)
Lemma on_start_accepted (msg : value) (s : Session) :
  started s = false →
  nullish (default_arg msg) = false →
  ∃ languageCode sampleRate,
    truthy languageCode = true ∧ truthy sampleRate = true
    ∧ step (ClientStart msg) s
      = ({| ws := ws s; started := true; sockets := sockets s |},
         [status [(lit "state", VStr (lit "starting"));
                  (lit "languageCode", languageCode);
                  (lit "sampleRate", sampleRate)];
          Presign languageCode sampleRate (VStr (lit "pcm"))]).
Proof.
  intros Hs Hmsg. cbn [step]. unfold on_start. rewrite Hs.
  rewrite !(get_not_nullish (default_arg msg)) by done.
  eexists _, _. split; [|split; [|reflexivity]].
  - unfold or_else. by destruct (truthy (get_opt _ _)) eqn:E.
  - unfold or_else. by destruct (truthy (get_opt _ _)) eqn:E.
Qed.

Lemma step_reset_fields (e : Event) (s : Session) :
  resets e = true →
  started (step e s).1 = false ∧ ws (step e s).1 = None.
Proof.
  destruct e; try done; intros _; cbn [step]; try done.
  unfold on_stop. by destruct (close_if_open _ _ s).
Qed.

Lemma close_if_open_length (code : Z) (reason : jsstring) (s : Session) :
  length (sockets (close_if_open code reason s).1) = length (sockets s).
Proof.
  unfold close_if_open. destruct (open_upstream s); simpl; [|done].
  by rewrite length_insert.
Qed.

Lemma close_if_open_no_presign (code : Z) (reason : jsstring) (s : Session) :
  filter is_presign (close_if_open code reason s).2 = [].
Proof. unfold close_if_open. by destruct (open_upstream s). Qed.

End TraceFacts.

(** X15: after any event that resets the session (a stop, an upstream
    close or error, a failed start), the session can be started again: the
    next [start] with a message that is not [null] is accepted, announces
    "starting" and asks for exactly one signature, with media encoding
    "pcm" and a language code and sample rate that are never falsy (an
    empty or zero field falls back to the default). *)
Theorem start_after_reset `{Runtime} (e : Event) (s : Session) (msg : value) :
  resets e = true →
  nullish (default_arg msg) = false →
  ∃ languageCode sampleRate,
    truthy languageCode = true ∧ truthy sampleRate = true
    ∧ step (ClientStart msg) (step e s).1
      = ({| ws := None; started := true;
            sockets := sockets (step e s).1 |},
         [status [(lit "state", VStr (lit "starting"));
                  (lit "languageCode", languageCode);
                  (lit "sampleRate", sampleRate)];
          Presign languageCode sampleRate (VStr (lit "pcm"))]).
Proof.
  intros He Hmsg. destruct (step_reset_fields e s He) as [Hst Hws].
  destruct (on_start_accepted msg (step e s).1 Hst Hmsg)
    as (lc & sr & Hlc & Hsr & Hstep).
  exists lc, sr. rewrite Hstep, Hws. done.
Qed.

Lemma start_after_reset_witness :
  ∃ languageCode sampleRate,
    truthy languageCode = true ∧ truthy sampleRate = true
    ∧ @step wire_runtime
        (ClientStart (VObj [(lit "languageCode", VStr [])]))
        (@step wire_runtime ClientStop streaming).1
      = ({| ws := None; started := true;
            sockets := sockets (@step wire_runtime ClientStop streaming).1 |},
         [status [(lit "state", VStr (lit "starting"));
                  (lit "languageCode", languageCode);
                  (lit "sampleRate", sampleRate)];
          Presign languageCode sampleRate (VStr (lit "pcm"))]).
Proof.
  apply (@start_after_reset wire_runtime ClientStop streaming
           (VObj [(lit "languageCode", VStr [])])); reflexivity.
Defined.

(** X16: a [stop] that arrives while the signature of a start is pending
    does not cancel that start: when the signed URL arrives the connection
    is created and stored all the same, so the session ends up referencing
    a connecting upstream connection while [started] is false. *)
Theorem stop_does_not_cancel_start `{Runtime}
    (s : Session) (msg : value) (url : jsstring) :
  started s = false →
  nullish (default_arg msg) = false →
  let s3 := (run [ClientStart msg; ClientStop; Presigned url] s).1 in
  let out := (run [ClientStart msg; ClientStop; Presigned url] s).2 in
  started s3 = false
  ∧ ws s3 = Some (length (sockets s))
  ∧ sockets s3 !! length (sockets s) = Some CONNECTING
  ∧ filter is_presign out ≠ []
  ∧ last out = Some (WsNew (length (sockets s)) url).
Proof.
  intros Hs Hmsg.
  destruct (on_start_accepted msg s Hs Hmsg) as (lc & sr & _ & _ & Hstart).
  cbn [run]. rewrite Hstart. cbn [step]. unfold on_stop.
  pose proof (close_if_open_length 1000 (lit "client stop")
                {| ws := ws s; started := true; sockets := sockets s |})
    as Hlen.
  destruct (close_if_open 1000 (lit "client stop") _) as [s' closing].
  cbn [fst snd sockets] in Hlen.
  unfold on_presigned, reset. cbn [fst snd ws started sockets].
  rewrite Hlen. repeat split.
  - rewrite <- Hlen. by rewrite lookup_app_r, Nat.sub_diag.
  - rewrite filter_app. cbn [app]. unfold status.
    rewrite filter_cons_False by (simpl; tauto).
    by rewrite filter_cons_True.
  - rewrite app_nil_r, !app_assoc. apply last_snoc.
Qed.

Lemma stop_does_not_cancel_start_witness :
  let s3 := (@run wire_runtime
               [ClientStart (VObj []); ClientStop; Presigned (lit "wss://h")]
               initial).1 in
  let out := (@run wire_runtime
                [ClientStart (VObj []); ClientStop; Presigned (lit "wss://h")]
                initial).2 in
  started s3 = false
  ∧ ws s3 = Some O
  ∧ sockets s3 !! O = Some CONNECTING
  ∧ filter is_presign out ≠ []
  ∧ last out = Some (WsNew O (lit "wss://h")).
Proof.
  apply (@stop_does_not_cancel_start wire_runtime initial (VObj [])
           (lit "wss://h")); reflexivity.
Defined.

(** X17: the race of a rapid stop-then-start.  A session streaming on
    connection [c0] is stopped and started again, the new signed URL
    arrives, and then the close event of [c0] comes in: its handler resets
    the session, which now has [started] false and references no
    connection, while the new connection has been created, is still
    connecting and was never asked to close; the only close request of the
    whole run is the one sent to [c0]. *)
Theorem stale_close_undoes_restart `{Runtime}
    (s : Session) (c0 : nat) (msg : value) (url : jsstring)
    (code : Z) (reason : jsstring) :
  ws s = Some c0 →
  sockets s !! c0 = Some OPEN →
  nullish (default_arg msg) = false →
  let es := [ClientStop; ClientStart msg; Presigned url;
             WsClosed c0 code reason] in
  started (run es s).1 = false
  ∧ ws (run es s).1 = None
  ∧ sockets (run es s).1 !! length (sockets s) = Some CONNECTING
  ∧ sockets (run es s).1 !! c0 = Some CLOSED
  ∧ filter is_close (run es s).2 = [WsClose c0 1000 (lit "client stop")].
Proof.
  intros Hws Hopen Hmsg es. subst es.
  assert (c0 < length (sockets s))%nat as Hc0 by by eapply lookup_lt_Some.
  assert (step ClientStop s
          = ({| ws := None; started := false;
                sockets := <[c0 := CLOSING]> (sockets s) |},
             [WsClose c0 1000 (lit "client stop");
              status [(lit "state", VStr (lit "stopping"))]])) as Hstop.
  { cbn [step]. unfold on_stop, close_if_open, open_upstream.
    rewrite Hws. simpl. by rewrite decide_True. }
  destruct (on_start_accepted msg
              {| ws := None; started := false;
                 sockets := <[c0 := CLOSING]> (sockets s) |} eq_refl Hmsg)
    as (lc & sr & _ & _ & Hstart).
  cbn [run]. rewrite Hstop, Hstart. cbn [step].
  unfold on_presigned, on_close, reset, set_ready.
  cbn [fst snd ws started sockets]. rewrite !length_insert.
  repeat split.
  - rewrite list_lookup_insert_ne by lia.
    rewrite lookup_app_r by (rewrite length_insert; lia).
    by rewrite length_insert, Nat.sub_diag.
  - apply list_lookup_insert_eq. rewrite length_app, length_insert. lia.
Qed.

Lemma stale_close_undoes_restart_witness :
  let es := [ClientStop; ClientStart (VObj []); Presigned (lit "wss://h");
             WsClosed 0 1000 (lit "client stop")] in
  started (@run wire_runtime es streaming).1 = false
  ∧ ws (@run wire_runtime es streaming).1 = None
  ∧ sockets (@run wire_runtime es streaming).1 !! 1%nat = Some CONNECTING
  ∧ sockets (@run wire_runtime es streaming).1 !! O = Some CLOSED
  ∧ filter is_close (@run wire_runtime es streaming).2
    = [WsClose 0 1000 (lit "client stop")].
Proof.
  apply (@stale_close_undoes_restart wire_runtime streaming O (VObj [])
           (lit "wss://h") 1000 (lit "client stop")); reflexivity.
Defined.

(** X18: audio is forwarded only once the new connection has opened.
    After the signed URL has arrived, a valid audio chunk is dropped while
    the connection is still connecting; once its open event has come in
    (which also emits status "streaming"), the same chunk is sent to that
    connection as one frame. *)
Theorem audio_waits_for_open `{Runtime}
    (s : Session) (url : jsstring) (msg : value) (bs payload : list byte) :
  bs ≠ [] →
  get (default_arg msg) (lit "chunkBase64") = Some (VStr (to_base64 bs)) →
  marshall {| headers := audio_headers; body := bs |} = Some payload →
  let c := length (sockets s) in
  (run [Presigned url; ClientAudio msg] s).2 = [WsNew c url]
  ∧ (run [Presigned url; WsOpened c; ClientAudio msg] s).2
    = [WsNew c url; status [(lit "state", VStr (lit "streaming"))];
       WsSend c payload].
Proof.
  intros Hbs Hget Hm c. subst c. split.
  - cbn [run step]. unfold on_presigned, on_audio, open_upstream.
    cbn [fst snd ws sockets mbind option_bind].
    rewrite decide_False; [done|].
    by rewrite lookup_app_r, Nat.sub_diag.
  - cbn [run]. cbn [step]. unfold on_presigned, on_open.
    cbn [fst snd].
    match goal with
    | |- context [on_audio msg ?x] =>
        change (on_audio msg x) with (step (ClientAudio msg) x)
    end.
    rewrite (audio_string_framed _ (length (sockets s)) msg (to_base64 bs)).
    + rewrite from_to_base64, Hm. done.
    + done.
    + unfold set_ready. cbn [sockets].
      apply list_lookup_insert_eq. rewrite length_app. simpl. lia.
    + done.
    + pose proof (to_base64_truthy bs Hbs) as Ht.
      by destruct (to_base64 bs).
Qed.

Lemma audio_waits_for_open_witness :
  (@run wire_runtime
     [Presigned (lit "wss://h");
      ClientAudio (VObj [(lit "chunkBase64", VStr (lit "AAAA"))])]
     initial).2
  = [WsNew 0 (lit "wss://h")]
  ∧ (@run wire_runtime
       [Presigned (lit "wss://h"); WsOpened 0;
        ClientAudio (VObj [(lit "chunkBase64", VStr (lit "AAAA"))])]
       initial).2
    = [WsNew 0 (lit "wss://h");
       status [(lit "state", VStr (lit "streaming"))];
       WsSend 0 silence_frame].
Proof.
  apply (@audio_waits_for_open wire_runtime initial (lit "wss://h")
           (VObj [(lit "chunkBase64", VStr (lit "AAAA"))])
           [x00; x00; x00] silence_frame); try reflexivity.
  discriminate.
Defined.

(** X19: a [stop] while the referenced connection is still connecting does
    not close it (only an open connection is closed): the session is reset
    and forgets the connection, and when that connection opens afterwards
    the client is still told "streaming", although the session is idle;
    audio sent then is dropped, and the connection stays open. *)
Theorem stop_while_connecting_leaves_connection `{Runtime}
    (s : Session) (c : nat) (msg : value) :
  ws s = Some c →
  sockets s !! c = Some CONNECTING →
  let es := [ClientStop; WsOpened c; ClientAudio msg] in
  (run es s).2 = [status [(lit "state", VStr (lit "stopping"))];
                  status [(lit "state", VStr (lit "streaming"))]]
  ∧ started (run es s).1 = false
  ∧ ws (run es s).1 = None
  ∧ sockets (run es s).1 !! c = Some OPEN.
Proof.
  intros Hws Hc es. subst es.
  assert (c < length (sockets s))%nat as Hlt by by eapply lookup_lt_Some.
  assert (step ClientStop s
          = ({| ws := None; started := false; sockets := sockets s |},
             [status [(lit "state", VStr (lit "stopping"))]])) as Hstop.
  { cbn [step]. unfold on_stop, close_if_open, open_upstream.
    rewrite Hws. simpl. rewrite decide_False by congruence. done. }
  cbn [run]. rewrite Hstop. cbn [step]. unfold on_open, on_audio.
  cbn [fst snd]. unfold open_upstream, set_ready.
  cbn [ws started sockets fst snd mbind option_bind app].
  repeat split. by apply list_lookup_insert_eq.
Qed.

Lemma stop_while_connecting_leaves_connection_witness :
  let s := {| ws := Some O; started := true; sockets := [CONNECTING] |} in
  let es := [ClientStop; WsOpened 0;
             ClientAudio (VObj [(lit "chunkBase64", VStr (lit "AAAA"))])] in
  (@run wire_runtime es s).2
  = [status [(lit "state", VStr (lit "stopping"))];
     status [(lit "state", VStr (lit "streaming"))]]
  ∧ started (@run wire_runtime es s).1 = false
  ∧ ws (@run wire_runtime es s).1 = None
  ∧ sockets (@run wire_runtime es s).1 !! O = Some OPEN.
Proof.
  apply (@stop_while_connecting_leaves_connection wire_runtime
           {| ws := Some O; started := true; sockets := [CONNECTING] |} O
           (VObj [(lit "chunkBase64", VStr (lit "AAAA"))])); reflexivity.
Defined.

(** X20: two starts separated by a stop, issued while the first signature
    is still pending, create two upstream connections: both signed URLs are
    turned into connections when they arrive, the second one replaces the
    first in the session's reference, and the first is never asked to
    close. *)
Theorem overlapping_starts_create_two_connections `{Runtime}
    (s : Session) (m1 m2 : value) (u1 u2 : jsstring) :
  started s = false →
  ws s = None →
  nullish (default_arg m1) = false →
  nullish (default_arg m2) = false →
  let es := [ClientStart m1; ClientStop; ClientStart m2;
             Presigned u1; Presigned u2] in
  let n := length (sockets s) in
  ws (run es s).1 = Some (S n)
  ∧ started (run es s).1 = true
  ∧ sockets (run es s).1 !! n = Some CONNECTING
  ∧ sockets (run es s).1 !! S n = Some CONNECTING
  ∧ filter is_new (run es s).2 = [WsNew n u1; WsNew (S n) u2]
  ∧ filter is_close (run es s).2 = [].
Proof.
  intros Hs Hws H1 H2 es n. subst es n.
  destruct (on_start_accepted m1 s Hs H1) as (lc1 & sr1 & _ & _ & Hstart1).
  destruct (on_start_accepted m2
              {| ws := None; started := false; sockets := sockets s |}
              eq_refl H2) as (lc2 & sr2 & _ & _ & Hstart2).
  assert (step ClientStop
            {| ws := ws s; started := true; sockets := sockets s |}
          = ({| ws := None; started := false; sockets := sockets s |},
             [status [(lit "state", VStr (lit "stopping"))]])) as Hstop.
  { cbn [step]. unfold on_stop, close_if_open, open_upstream. simpl.
    by rewrite Hws. }
  cbn [run]. rewrite Hstart1, Hstop, Hstart2. cbn [step].
  unfold on_presigned. cbn [fst snd ws started sockets].
  rewrite length_app. cbn [length]. rewrite Nat.add_1_r.
  repeat split.
  - rewrite lookup_app_l by (rewrite length_app; simpl; lia).
    by rewrite lookup_app_r, Nat.sub_diag.
  - rewrite lookup_app_r by (rewrite length_app; simpl; lia).
    rewrite length_app. simpl.
    by replace (S (length (sockets s)) - (length (sockets s) + 1))%nat
      with O by lia.
Qed.

Lemma overlapping_starts_create_two_connections_witness :
  let es := [ClientStart (VObj []); ClientStop; ClientStart (VObj []);
             Presigned (lit "wss://a"); Presigned (lit "wss://b")] in
  ws (@run wire_runtime es initial).1 = Some 1%nat
  ∧ started (@run wire_runtime es initial).1 = true
  ∧ sockets (@run wire_runtime es initial).1 !! O = Some CONNECTING
  ∧ sockets (@run wire_runtime es initial).1 !! 1%nat = Some CONNECTING
  ∧ filter is_new (@run wire_runtime es initial).2
    = [WsNew 0 (lit "wss://a"); WsNew 1 (lit "wss://b")]
  ∧ filter is_close (@run wire_runtime es initial).2 = [].
Proof.
  apply (@overlapping_starts_create_two_connections wire_runtime initial
           (VObj []) (VObj []) (lit "wss://a") (lit "wss://b")); reflexivity.
Defined.

(** ** The credentials provider *)

(** X21: [credentialsProvider] throws exactly when the access key id or
    the secret access key is missing from the environment or empty; the
    session token plays no part in that, and when it does not throw the
    credentials are the three environment values unchanged, the token
    being absent when the variable is. *)
Theorem credentialsProvider_fails_iff (env : gmap jsstring jsstring) :
  (credentialsProvider env = None
   ↔ env !! lit "AWS_ACCESS_KEY_ID" = None
     ∨ env !! lit "AWS_ACCESS_KEY_ID" = Some []
     ∨ env !! lit "AWS_SECRET_ACCESS_KEY" = None
     ∨ env !! lit "AWS_SECRET_ACCESS_KEY" = Some [])
  ∧ ∀ creds,
      credentialsProvider env = Some creds →
      env !! lit "AWS_ACCESS_KEY_ID" = Some (accessKeyId creds)
      ∧ env !! lit "AWS_SECRET_ACCESS_KEY" = Some (secretAccessKey creds)
      ∧ env !! lit "AWS_SESSION_TOKEN" = sessionToken creds.
Proof.
  unfold credentialsProvider.
  destruct (env !! lit "AWS_ACCESS_KEY_ID") as [[|a ak]|];
    destruct (env !! lit "AWS_SECRET_ACCESS_KEY") as [[|b sk]|];
    (split; [split; [intros; tauto || done | intros [|[|[|]]]; done]
            |intros creds Hc; by simplify_eq/=]).
Qed.
